(** * prepro.py: vocabulary construction, split assignment and caption
      encoding, embedded in Rocq.

    The script turns a list of image records, each with several captions,
    into a vocabulary, a split label per record and a zero-padded matrix of
    word ids with 1-indexed span pointers.  The development follows
    [build_vocab], [assign_splits], [encode_captions] and the part of [main]
    that calls them: the corpus enters already shuffled and tokenised
    (every record carries its [processed_tokens]), and the arrays leave as
    [main] hands them to the HDF5 and JSON writers.

    Conventions of the embedding:
    - Python integers are [Z].  The label arrays are NumPy arrays of dtype
      [uint32]: a Python integer assigned into a cell is converted to a C
      integer and reduced modulo 2^32 ([uint32]), which is the silent
      conversion of the NumPy releases that run under Python 2 on 64-bit
      platforms.  The conversion exists for the integers from [-2^63] to
      [2^64 - 1] ([storable]); an integer beyond them makes the
      assignment raise [OverflowError].  The lengths and the pointers the
      script stores are sizes of lists, and the ids [main] stores are
      positions in the vocabulary; for a table [wtoi] given to
      [encode_captions] from elsewhere, the statements that say that a
      run returns, or which exception ends it, are about tables whose ids
      are [storable] ([known_word]);
    - a [dict] with string keys is a [gmap string _]; iterating over it
      ([iteritems]) enumerates the map in the order [map_to_list] gives,
      of which the proofs use nothing but that every key occurs once;
    - a list of arrays indexed in place is a [list] with a bounds-checked
      store ([store], [store2]);
    - a raised exception is the [Raise] branch of [result], and the loops
      stop at the first one. *)

From stdpp Require Import gmap strings list fin_maps.
From Stdlib Require Import ZArith Lia.
From Stdlib Require Import Ascii.

Local Open Scope Z_scope.

(** ** Exceptions and the error monad *)

Inductive exn : Type :=
| AssertionError (msg : string)
| KeyError (key : string)
| ValueError (msg : string)
| IndexError
| ZeroDivisionError.

Inductive result (A : Type) : Type :=
| Ok (a : A)
| Raise (e : exn).
Arguments Ok {A} a.
Arguments Raise {A} e.

#[global] Instance result_ret : MRet result := fun A a => Ok a.
#[global] Instance result_bind : MBind result := fun A B k r =>
  match r with
  | Ok a => k a
  | Raise e => Raise e
  end.

Definition assert (b : bool) (msg : string) : result unit :=
  if b then Ok tt else Raise (AssertionError msg).


(** ** Data model *)

(** A caption after tokenisation: the list of its words. *)
Abbreviation caption := (list string).

(** One element of [imgs].  [processed_tokens] is written by
    [prepro_captions], [final_captions] by [build_vocab] and [split] by
    [assign_splits]; a key that has not been written yet is [None]. *)
Record img : Type := Img {
  processed_tokens : list caption;
  final_captions : option (list caption);
  split : option string;
}.

Record params : Type := Params {
  word_count_threshold : Z;
  max_length : Z;
  num_val : Z;
  num_test : Z;
}.

Definition UNK : string := "UNK".

(** ** build_vocab *)

(** [counts[w] = counts.get(w, 0) + 1] *)
Definition count_word (counts : gmap string Z) (w : string) : gmap string Z :=
  <[w := default 0 (counts !! w) + 1]> counts.

(** The three nested loops over images, captions and words. *)
Definition count_words (imgs : list img) : gmap string Z :=
  foldl (fun counts im =>
           foldl (fun counts txt => foldl count_word counts txt)
                 counts (processed_tokens im))
        ∅ imgs.

(** [counts.iteritems()] *)
Definition iteritems (counts : gmap string Z) : list (string * Z) :=
  map_to_list counts.

Definition sum_Z (l : list Z) : Z := foldr Z.add 0 l.

(** [[w for w,n in counts.iteritems() if n <= count_thr]] *)
Definition bad_words_of (counts : gmap string Z) (count_thr : Z) : list string :=
  (filter (fun wn => wn.2 ≤ count_thr) (iteritems counts)).*1.

(** [[w for w,n in counts.iteritems() if n > count_thr]] *)
Definition vocab_of (counts : gmap string Z) (count_thr : Z) : list string :=
  (filter (fun wn => count_thr < wn.2) (iteritems counts)).*1.

(** [sum(counts[w] for w in bad_words)]; every [w] is a key of [counts]. *)
Definition bad_count_of (counts : gmap string Z) (bad_words : list string) : Z :=
  sum_Z ((fun w => default 0 (counts !! w)) <$> bad_words).

(** The histogram of caption lengths, [sent_lengths]. *)
Definition sent_lengths_of (imgs : list img) : gmap nat Z :=
  foldl (fun sl im =>
           foldl (fun sl (txt : caption) =>
                    <[length txt := default 0 (sl !! length txt) + 1]> sl)
                 sl (processed_tokens im))
        ∅ imgs.

(** [w if counts.get(w,0) > count_thr else 'UNK'] *)
Definition final_word (counts : gmap string Z) (count_thr : Z) (w : string) : string :=
  if bool_decide (count_thr < default 0 (counts !! w)) then w else UNK.

Definition final_caption (counts : gmap string Z) (count_thr : Z) (txt : caption) : caption :=
  final_word counts count_thr <$> txt.

Definition set_final_captions (counts : gmap string Z) (count_thr : Z) (im : img) : img :=
  {| processed_tokens := processed_tokens im;
     final_captions := Some (final_caption counts count_thr <$> processed_tokens im);
     split := split im |}.

(** [build_vocab] writes ['final_captions'] into every record and returns
    the vocabulary; the embedding returns the updated corpus next to it.
    The statistics printed between the counting and the rewriting divide
    by [len(counts)], by [total_words] and by the number of captions, and
    take the maximum of the caption lengths; each is a point where the
    function can raise. *)
Definition build_vocab (imgs : list img) (p : params) : result (list string * list img) :=
  let count_thr := word_count_threshold p in
  let counts := count_words imgs in
  let total_words := sum_Z (iteritems counts).*2 in
  let bad_words := bad_words_of counts count_thr in
  let vocab := vocab_of counts count_thr in
  let bad_count := bad_count_of counts bad_words in
  if bool_decide (size counts = 0%nat) then Raise ZeroDivisionError else
  if bool_decide (total_words = 0) then Raise ZeroDivisionError else
  let sent_lengths := sent_lengths_of imgs in
  if bool_decide (size sent_lengths = 0%nat)
  then Raise (ValueError "max() arg is an empty sequence") else
  let sum_len := sum_Z (map_to_list sent_lengths).*2 in
  if bool_decide (sum_len = 0) then Raise ZeroDivisionError else
  let vocab := if bool_decide (0 < bad_count) then vocab ++ [UNK] else vocab in
  Ok (vocab, set_final_captions counts count_thr <$> imgs).

(** ** assign_splits *)

(** The label of the record at position [i]. *)
Definition split_label (num_val num_test : Z) (i : nat) : string :=
  if bool_decide (Z.of_nat i < num_val) then "val"
  else if bool_decide (Z.of_nat i < num_val + num_test) then "test"
  else "train".

Definition set_split (label : string) (im : img) : img :=
  {| processed_tokens := processed_tokens im;
     final_captions := final_captions im;
     split := Some label |}.

(** [assign_splits] writes ['split'] into every record; the embedding
    returns the updated corpus. *)
Definition assign_splits (imgs : list img) (p : params) : list img :=
  imap (fun i im => set_split (split_label (num_val p) (num_test p) i) im) imgs.

(** ** encode_captions *)

(** The value a [uint32] cell holds after a Python integer is stored. *)
Definition uint32 (z : Z) : Z := z mod 2 ^ 32.

(** [a[i] = v] on a one-dimensional [uint32] array, for an integer [v]
    that NumPy converts (from [-2^63] to [2^64 - 1], see [storable]). *)
Definition store (a : list Z) (i : nat) (v : Z) : result (list Z) :=
  if bool_decide (i < length a)%nat then Ok (<[i := uint32 v]> a)
  else Raise IndexError.

(** [Li[j,k] = v] on a two-dimensional [uint32] array, kept as its rows. *)
Definition store2 (Li : list (list Z)) (j k : nat) (v : Z) : result (list (list Z)) :=
  match Li !! j with
  | Some row => row' ← store row k v; Ok (<[j := row']> Li)
  | None => Raise IndexError
  end.

(** [np.zeros((n, max_length), dtype='uint32')] *)
Definition zeros2 (n : nat) (max_length : Z) : result (list (list Z)) :=
  if bool_decide (max_length < 0)
  then Raise (ValueError "negative dimensions are not allowed")
  else Ok (replicate n (replicate (Z.to_nat max_length) 0)).

(** [for i, x in enumerate(l)], threading the loop state and stopping at
    the first exception. *)
Fixpoint for_enumerate {A St : Type} (body : nat → A → St → result St)
    (i : nat) (l : list A) (s : St) : result St :=
  match l with
  | [] => Ok s
  | x :: l => s' ← body i x s; for_enumerate body (S i) l s'
  end.

(** [img['final_captions']] *)
Definition get_final_captions (im : img) : result (list caption) :=
  match final_captions im with
  | Some cs => Ok cs
  | None => Raise (KeyError "final_captions")
  end.

(** [wtoi[w]] *)
Definition getitem (wtoi : gmap string Z) (w : string) : result Z :=
  match wtoi !! w with
  | Some ix => Ok ix
  | None => Raise (KeyError w)
  end.

(** [sum(len(img['final_captions']) for img in imgs)] *)
Fixpoint total_captions (imgs : list img) : result nat :=
  match imgs with
  | [] => Ok 0%nat
  | im :: imgs =>
      cs ← get_final_captions im;
      m ← total_captions imgs;
      Ok (length cs + m)%nat
  end.

(** The variables the loops of [encode_captions] update. *)
Record enc_state : Type := EncState {
  label_arrays : list (list (list Z));
  label_start_ix : list Z;
  label_end_ix : list Z;
  label_length : list Z;
  caption_counter : nat;
  counter : Z;
}.

(** Body of [for k,w in enumerate(s)]. *)
Definition encode_word (max_length : Z) (wtoi : gmap string Z) (j : nat)
    (k : nat) (w : string) (Li : list (list Z)) : result (list (list Z)) :=
  if bool_decide (Z.of_nat k < max_length)
  then ix ← getitem wtoi w; store2 Li j k ix
  else Ok Li.

(** Body of [for j,s in enumerate(img['final_captions'])]; the state is
    [Li] together with [label_length] and [caption_counter]. *)
Definition encode_caption (max_length : Z) (wtoi : gmap string Z)
    (j : nat) (s : caption) (st : list (list Z) * list Z * nat)
    : result (list (list Z) * list Z * nat) :=
  let '(Li, lengths, cc) := st in
  lengths ← store lengths cc (Z.min max_length (Z.of_nat (length s)));
  Li ← for_enumerate (encode_word max_length wtoi j) 0 s Li;
  Ok (Li, lengths, S cc).

(** Body of [for i,img in enumerate(imgs)]. *)
Definition encode_img (max_length : Z) (wtoi : gmap string Z)
    (i : nat) (im : img) (st : enc_state) : result enc_state :=
  cs ← get_final_captions im;
  let n := length cs in
  _ ← assert (bool_decide (0 < n)%nat) "error: some image has no captions";
  Li ← zeros2 n max_length;
  '(Li, lengths, cc) ←
    for_enumerate (encode_caption max_length wtoi) 0 cs
                  (Li, label_length st, caption_counter st);
  starts ← store (label_start_ix st) i (counter st);
  ends ← store (label_end_ix st) i (counter st + Z.of_nat n - 1);
  Ok {| label_arrays := label_arrays st ++ [Li];
        label_start_ix := starts;
        label_end_ix := ends;
        label_length := lengths;
        caption_counter := cc;
        counter := counter st + Z.of_nat n |}.

(** [np.concatenate(label_arrays, axis=0)] *)
Definition concatenate (arrays : list (list (list Z))) : result (list (list Z)) :=
  match arrays with
  | [] => Raise (ValueError "need at least one array to concatenate")
  | _ => Ok (mjoin arrays)
  end.

(** The loops of [encode_captions]: the total number of captions [M] and
    the state in which the loop over the records ends. *)
Definition encode_loop (imgs : list img) (p : params) (wtoi : gmap string Z)
    : result (nat * enc_state) :=
  let max_length := max_length p in
  let N := length imgs in
  M ← total_captions imgs;
  st ← for_enumerate (encode_img max_length wtoi) 0 imgs
         {| label_arrays := [];
            label_start_ix := replicate N 0;
            label_end_ix := replicate N 0;
            label_length := replicate M 0;
            caption_counter := 0;
            counter := 1 |};
  Ok (M, st).

Definition encode_captions (imgs : list img) (p : params) (wtoi : gmap string Z)
    : result (list (list Z) * list Z * list Z * list Z) :=
  '(M, st) ← encode_loop imgs p wtoi;
  L ← concatenate (label_arrays st);
  _ ← assert (bool_decide (length L = M)) "lengths don't match? that's weird";
  _ ← assert (forallb (fun x => bool_decide (0 < x)) (label_length st))
             "error: some caption had no words?";
  Ok (L, label_start_ix st, label_end_ix st, label_length st).

(** ** main, from the tokenised corpus to the arrays that are written *)

(** [{i+1:w for i,w in enumerate(vocab)}] *)
Fixpoint itow_from (i : nat) (vocab : list string) (itow : gmap Z string) : gmap Z string :=
  match vocab with
  | [] => itow
  | w :: vocab => itow_from (S i) vocab (<[Z.of_nat i + 1 := w]> itow)
  end.

(** [{w:i+1 for i,w in enumerate(vocab)}]; a word listed twice keeps the
    later index. *)
Fixpoint wtoi_from (i : nat) (vocab : list string) (wtoi : gmap string Z) : gmap string Z :=
  match vocab with
  | [] => wtoi
  | w :: vocab => wtoi_from (S i) vocab (<[w := Z.of_nat i + 1]> wtoi)
  end.

Definition itow_of (vocab : list string) : gmap Z string := itow_from 0 vocab ∅.
Definition wtoi_of (vocab : list string) : gmap string Z := wtoi_from 0 vocab ∅.

Record output : Type := Output {
  out_labels : list (list Z);
  out_label_start_ix : list Z;
  out_label_end_ix : list Z;
  out_label_length : list Z;
  out_ix_to_word : gmap Z string;
  out_splits : list (option string);
}.

(** [main] after [shuffle] and [prepro_captions]: [imgs] is the shuffled
    corpus with its [processed_tokens]. *)
Definition main (imgs : list img) (p : params) : result output :=
  '(vocab, imgs) ← build_vocab imgs p;
  let itow := itow_of vocab in
  let wtoi := wtoi_of vocab in
  let imgs := assign_splits imgs p in
  '(L, starts, ends, lengths) ← encode_captions imgs p wtoi;
  Ok {| out_labels := L;
        out_label_start_ix := starts;
        out_label_end_ix := ends;
        out_label_length := lengths;
        out_ix_to_word := itow;
        out_splits := split <$> imgs |}.


(** ** Reference notions the statements are written in *)

(** Every caption of the corpus, in corpus-then-caption order. *)
Definition all_captions (imgs : list img) : list caption :=
  mjoin (processed_tokens <$> imgs).

(** Every word occurrence of the corpus. *)
Definition all_tokens (imgs : list img) : list string :=
  mjoin (all_captions imgs).

(** The number of times a key occurs in a list. *)
Definition kocc `{EqDecision K} (k : K) (l : list K) : Z :=
  Z.of_nat (length (filter (fun x => x = k) l)).

(** The corpus-wide token count of [w]. *)
Definition word_count (imgs : list img) (w : string) : Z :=
  kocc w (all_tokens imgs).

(** The update [m[k] = m.get(k, 0) + 1] of a table of counts, for any key
    type: [count_word] for the words, and the update of [sent_lengths]. *)
Definition bump `{Countable K} (m : gmap K Z) (k : K) : gmap K Z :=
  <[k := default 0 (m !! k) + 1]> m.

(** Some word of the corpus has a count at or below the threshold. *)
Definition some_word_dropped (imgs : list img) (t : Z) : Prop :=
  Exists (fun w => word_count imgs w ≤ t) (all_tokens imgs).

#[global] Instance some_word_dropped_dec imgs t : Decision (some_word_dropped imgs t).
Proof. unfold some_word_dropped. apply _. Defined.

(** The word at position [k] of caption [j] of a list of captions. *)
Definition token_at (caps : list caption) (j k : nat) : option string :=
  caps !! j ≫= fun txt => txt !! k.

(** The number of records of [imgs] whose split is [label]. *)
Definition count_split (label : string) (imgs : list img) : nat :=
  length (filter (fun im => split im = Some label) imgs).

(** The number of nonzero entries of a row. *)
Definition count_nonzero (row : list Z) : nat :=
  length (filter (fun x => x ≠ 0) row).

(** The final captions of a record, [[]] while they have not been written. *)
Definition finals_of (im : img) : list caption :=
  default [] (final_captions im).

(** The final captions of the whole corpus, record by record, and
    flattened in corpus-then-caption order. *)
Definition final_lists (imgs : list img) : list (list caption) :=
  finals_of <$> imgs.

Definition all_final_captions (imgs : list img) : list caption :=
  mjoin (final_lists imgs).

(** A record whose final captions are written and not empty. *)
Definition has_captions (im : img) : Prop :=
  final_captions im = Some (finals_of im) ∧ finals_of im ≠ [].

(** The index, in the flattened list of captions, of caption [j] of
    record [i]: the number of captions of the records before [i], plus [j]. *)
Definition row_index (imgs : list img) (i j : nat) : nat :=
  (length (all_final_captions (take i imgs)) + j)%nat.





(** ** The encoder as a function of the final captions

    [encode_captions] fills its arrays cell by cell.  The definitions
    below give the same result caption by caption; [encode_captions_eq]
    proves that the two agree, exceptions included. *)

(** One row of the label matrix: the ids of the first [max_length] words,
    then zeros. *)
Definition encode_row (max_length : Z) (wtoi : gmap string Z) (s : caption)
    : result (list Z) :=
  ids ← mapM (getitem wtoi) (take (Z.to_nat max_length) s);
  Ok ((uint32 <$> ids) ++ replicate (Z.to_nat max_length - length ids) 0).

(** The array [Li] of one record. *)
Definition encode_block (max_length : Z) (wtoi : gmap string Z) (im : img)
    : result (list (list Z)) :=
  cs ← get_final_captions im;
  _ ← assert (bool_decide (0 < length cs)%nat) "error: some image has no captions";
  _ ← zeros2 (length cs) max_length;
  mapM (encode_row max_length wtoi) cs.

(** The cell of [label_length] for a caption. *)
Definition caption_length (max_length : Z) (s : caption) : Z :=
  uint32 (Z.min max_length (Z.of_nat (length s))).

(** The cells of [label_start_ix] and [label_end_ix] for records whose
    captions are [fl], the running counter being [c]. *)
Fixpoint starts_from (c : Z) (fl : list (list caption)) : list Z :=
  match fl with
  | [] => []
  | cs :: fl => uint32 c :: starts_from (c + Z.of_nat (length cs)) fl
  end.

Fixpoint ends_from (c : Z) (fl : list (list caption)) : list Z :=
  match fl with
  | [] => []
  | cs :: fl =>
      uint32 (c + Z.of_nat (length cs) - 1) :: ends_from (c + Z.of_nat (length cs)) fl
  end.

(** The state in which the loop over the records ends, given the arrays
    [blocks] of the records. *)
Definition final_state (imgs : list img) (p : params) (blocks : list (list (list Z)))
    : enc_state :=
  {| label_arrays := blocks;
     label_start_ix := starts_from 1 (final_lists imgs);
     label_end_ix := ends_from 1 (final_lists imgs);
     label_length := caption_length (max_length p) <$> all_final_captions imgs;
     caption_counter := length (all_final_captions imgs);
     counter := 1 + Z.of_nat (length (all_final_captions imgs)) |}.

(** [encode_captions], caption by caption. *)
Definition encode_captions_fun (imgs : list img) (p : params) (wtoi : gmap string Z)
    : result (list (list Z) * list Z * list Z * list Z) :=
  let ml := max_length p in
  _ ← total_captions imgs;
  blocks ← mapM (encode_block ml wtoi) imgs;
  L ← concatenate blocks;
  _ ← assert (forallb (fun x => bool_decide (0 < x))
                      (caption_length ml <$> all_final_captions imgs))
             "error: some caption had no words?";
  Ok (L, starts_from 1 (final_lists imgs), ends_from 1 (final_lists imgs),
      caption_length ml <$> all_final_captions imgs).

(** ** A small corpus, before and after each stage *)

(** Two records, three captions; with threshold 1 only ["a"] is kept. *)
Definition ex_corpus : list img :=
  [ Img [["a"; "dog"]; ["two"; "dogs"; "run"]] None None;
    Img [["a"; "cat"]] None None ].

Definition ex_params : params :=
  {| word_count_threshold := 1; max_length := 2; num_val := 1; num_test := 0 |}.

Definition ex_vocab : list string := ["a"; UNK].

Definition ex_final : list img :=
  [ Img [["a"; "dog"]; ["two"; "dogs"; "run"]]
        (Some [["a"; UNK]; [UNK; UNK; UNK]]) None;
    Img [["a"; "cat"]] (Some [["a"; UNK]]) None ].

Definition ex_wtoi : gmap string Z := wtoi_of ex_vocab.

Definition ex_labels : list (list Z) := [[1; 2]; [2; 2]; [1; 2]].
Definition ex_starts : list Z := [1; 3].
Definition ex_ends : list Z := [2; 3].
Definition ex_lengths : list Z := [2; 2; 2].

Definition ex_output : output :=
  {| out_labels := ex_labels; out_label_start_ix := ex_starts;
     out_label_end_ix := ex_ends; out_label_length := ex_lengths;
     out_ix_to_word := itow_of ex_vocab;
     out_splits := [Some "val"; Some "train"] |}.

(** Split sizes that add up to more than the two records of [ex_corpus]. *)
Definition oversized_params : params :=
  {| word_count_threshold := 1; max_length := 2; num_val := 1; num_test := 5 |}.


Definition no_words_corpus : list img :=
  [ {| processed_tokens := [[]]; final_captions := Some [[]]; split := None |} ].



(** ** Corpora at the limits of the [uint32] cells *)

Definition two_pow_32 : nat := Z.to_nat (2 ^ 32).

(** One record with [n] captions, each the single word ["a"]. *)
Definition long_corpus (n : nat) : list img :=
  [ {| processed_tokens := replicate n ["a"];
       final_captions := Some (replicate n ["a"]);
       split := None |} ].

Definition long_params : params :=
  {| word_count_threshold := 0; max_length := 1; num_val := 0; num_test := 0 |}.

Definition long_wtoi : gmap string Z := {[ "a" := 1 ]}.

(** One record with one caption of [n] words ["a"], encoded at width [n]:
    as it leaves [prepro_captions], and as it leaves [build_vocab]. *)
Definition wide_tokens (n : nat) : list img :=
  [ {| processed_tokens := [replicate n "a"];
       final_captions := None;
       split := None |} ].

Definition wide_corpus (n : nat) : list img :=
  [ {| processed_tokens := [replicate n "a"];
       final_captions := Some [replicate n "a"];
       split := None |} ].

Definition wide_params (n : nat) : params :=
  {| word_count_threshold := 0; max_length := Z.of_nat n;
     num_val := 0; num_test := 0 |}.

(** ** prepro_captions

    The records as [json.load] yields them: every caption is a Unicode
    string, kept as the list of its code points.  The other keys of a
    record, ['file_path'] and ['id'], are copied to the output untouched
    and are left out. *)
Record raw_img : Type := RawImg {
  captions : list (list N);
}.

(** [str(s)] on a Unicode string encodes it with the ['ascii'] codec and
    raises [UnicodeEncodeError], a [ValueError], at a code point above 127. *)
Definition str (s : list N) : result (list ascii) :=
  if forallb (fun c => bool_decide (c < 128)%N) s then Ok (ascii_of_N <$> s)
  else Raise (ValueError "'ascii' codec can't encode character").

(** One character of [.lower()]: ['A'..'Z'] to ['a'..'z']. *)
Definition lower (c : ascii) : ascii :=
  if bool_decide (65 ≤ N_of_ascii c ≤ 90)%N
  then ascii_of_N (N_of_ascii c + 32) else c.

(** [string.punctuation]: the 32 printable ASCII characters that are
    neither letters nor digits nor the space, by their codes (33 to 47,
    58 to 64, 91 to 96 and 123 to 126). *)
Definition punctuation : list ascii :=
  ascii_of_N <$> [33; 34; 35; 36; 37; 38; 39; 40; 41; 42; 43; 44; 45; 46; 47;
                  58; 59; 60; 61; 62; 63; 64;
                  91; 92; 93; 94; 95; 96;
                  123; 124; 125; 126]%N.

(** The characters [.strip()] and [.split()] treat as white space: tab,
    line feed, vertical tab, form feed, carriage return and space. *)
Definition whitespace : list ascii :=
  ascii_of_N <$> [9; 10; 11; 12; 13; 32]%N.

(** [s.translate(None, deletechars)] *)
Definition translate_delete (deletechars : list ascii) (s : list ascii) : list ascii :=
  filter (fun c => c ∉ deletechars) s.

Fixpoint lstrip (s : list ascii) : list ascii :=
  match s with
  | [] => []
  | c :: s' => if decide (c ∈ whitespace) then lstrip s' else s
  end.

(** [s.strip()] *)
Definition strip (s : list ascii) : list ascii :=
  reverse (lstrip (reverse (lstrip s))).

(** [s.split()]: the maximal runs of characters that are not white
    space; [cur] is the run being read. *)
Fixpoint split_go (cur : list ascii) (s : list ascii) : list (list ascii) :=
  match s with
  | [] => if decide (cur = []) then [] else [cur]
  | c :: s =>
      if decide (c ∈ whitespace)
      then (if decide (cur = []) then split_go [] s else cur :: split_go [] s)
      else split_go (cur ++ [c]) s
  end.

Definition split_words (s : list ascii) : list (list ascii) := split_go [] s.

(** [str(s).lower().translate(None, string.punctuation).strip().split()] *)
Definition tokenize (s : list N) : result caption :=
  b ← str s;
  Ok (String.string_of_list_ascii
        <$> split_words (strip (translate_delete punctuation (lower <$> b)))).

(** The body of the loop over the images: the tokens of every caption. *)
Definition prepro_img (r : raw_img) : result img :=
  toks ← mapM tokenize (captions r);
  Ok {| processed_tokens := toks; final_captions := None; split := None |}.

Definition prepro_captions (raws : list raw_img) : result (list img) :=
  mapM prepro_img raws.

(** [main] from the decoded records, in the order the shuffle left them. *)
Definition main_from_captions (raws : list raw_img) (p : params) : result output :=
  imgs ← prepro_captions raws;
  main imgs p.

(** The code points of a string, to write captions down. *)
Definition codes (s : string) : list N := N_of_ascii <$> String.list_ascii_of_string s.

Definition ex_raw : list raw_img :=
  [ RawImg [codes "A Dog!"; codes " Two dogs  run. "];
    RawImg [codes "a cat?"] ].

(** [ex_corpus] under the threshold 0: every word is kept. *)
Definition ex_params0 : params :=
  {| word_count_threshold := 0; max_length := 2; num_val := 1; num_test := 0 |}.

Definition ex_vocab0 : list string := ["cat"; "a"; "run"; "two"; "dogs"; "dog"].

Definition ex_final0 : list img :=
  [ Img [["a"; "dog"]; ["two"; "dogs"; "run"]]
        (Some [["a"; "dog"]; ["two"; "dogs"; "run"]]) None;
    Img [["a"; "cat"]] (Some [["a"; "cat"]]) None ].

(** A character a token can hold: ASCII, not white space, not
    punctuation, and unchanged by [lower] (not an upper-case letter). *)
Definition clean_char (c : ascii) : Prop :=
  (c ∉ whitespace) ∧ (c ∉ punctuation) ∧ lower c = c ∧ (N_of_ascii c < 128)%N.

(** A code point that leaves no trace in the tokens: ASCII white space
    or punctuation. *)
Definition blank_code (c : N) : Prop :=
  (c < 128)%N ∧ (ascii_of_N c ∈ whitespace ∨ ascii_of_N c ∈ punctuation).

(** The characters of a string. *)
Definition chars (w : string) : list ascii := String.list_ascii_of_string w.

(** [' '.join(txt)], as code points: the tokens of a caption written
    back as one string, separated by single spaces. *)
Fixpoint join_chars (ws : list (list ascii)) : list ascii :=
  match ws with
  | [] => []
  | [w] => w
  | w :: ws => w ++ " "%char :: join_chars ws
  end.

Definition join_words (toks : caption) : list N :=
  N_of_ascii <$> join_chars (chars <$> toks).

(** * Properties *)

(** ** Facts about the frequency table *)

Section histogram.
Context `{Countable K}.


Lemma kocc_nil (k : K) : kocc k [] = 0.
Proof. done. Qed.

Lemma kocc_cons (k x : K) (l : list K) :
  kocc k (x :: l) = (if decide (x = k) then 1 else 0) + kocc k l.
Proof.
  unfold kocc. rewrite filter_cons.
  destruct (decide (x = k)); simpl; lia.
Qed.

Lemma kocc_nonneg (k : K) (l : list K) : 0 ≤ kocc k l.
Proof. unfold kocc. lia. Qed.

Lemma kocc_pos (k : K) (l : list K) : 0 < kocc k l ↔ k ∈ l.
Proof.
  induction l as [|x l IH]; [rewrite kocc_nil; set_solver by lia|].
  rewrite kocc_cons, elem_of_cons. pose proof (kocc_nonneg k l).
  destruct (decide (x = k)) as [->|]; [intuition lia|].
  rewrite <- IH. intuition (try lia; congruence).
Qed.

Lemma foldl_bump_lookup (l : list K) (m : gmap K Z) (k : K) :
  default 0 (foldl bump m l !! k) = default 0 (m !! k) + kocc k l.
Proof.
  revert m. induction l as [|x l IH]; intros m; simpl.
  - rewrite kocc_nil. lia.
  - rewrite IH, kocc_cons. unfold bump.
    destruct (decide (x = k)) as [->|Hne].
    + rewrite lookup_insert_eq. simpl. lia.
    + rewrite lookup_insert_ne by done. lia.
Qed.

Lemma foldl_bump_is_Some (l : list K) (m : gmap K Z) (k : K) :
  is_Some (foldl bump m l !! k) ↔ is_Some (m !! k) ∨ k ∈ l.
Proof.
  revert m. induction l as [|x l IH]; intros m; simpl.
  - split; [by left|]. intros [?|Hk]; [done|]. by apply elem_of_nil in Hk.
  - rewrite IH. unfold bump. rewrite elem_of_cons.
    destruct (decide (x = k)) as [->|Hne].
    + rewrite lookup_insert_eq. intuition eauto.
    + rewrite lookup_insert_ne by done. intuition congruence.
Qed.

Lemma foldl_bump_positive (l : list K) (m : gmap K Z) :
  map_Forall (fun _ n => 1 ≤ n) m →
  map_Forall (fun _ n => 1 ≤ n) (foldl bump m l).
Proof.
  revert m. induction l as [|x l IH]; intros m Hm; simpl; [done|].
  apply IH. unfold bump. apply map_Forall_insert_2; [|done].
  destruct (m !! x) as [n|] eqn:E; simpl; [|lia].
  specialize (Hm x n E). simpl in Hm. lia.
Qed.

Lemma foldl_bump_empty (l : list K) :
  foldl bump ∅ l = ∅ ↔ l = [].
Proof.
  split; [|by intros ->].
  destruct l as [|x l]; [done|]. intros Hm.
  assert (is_Some (foldl bump (∅ : gmap K Z) (x :: l) !! x)) as [n Hn].
  { apply foldl_bump_is_Some. right. by left. }
  rewrite Hm, lookup_empty in Hn. done.
Qed.

(** The table of a non-empty list: what a key maps to. *)
Lemma foldl_bump_Some (l : list K) (k : K) (n : Z) :
  foldl bump ∅ l !! k = Some n ↔ n = kocc k l ∧ k ∈ l.
Proof.
  pose proof (foldl_bump_lookup l ∅ k) as Hd.
  pose proof (foldl_bump_is_Some l ∅ k) as Hs.
  rewrite lookup_empty in Hd, Hs. simpl in Hd.
  split.
  - intros Hn. rewrite Hn in Hd, Hs. simpl in Hd. split; [lia|].
    destruct Hs as [Hs _]. destruct Hs as [[? ?]|?]; by eauto.
  - intros [-> Hk]. destruct Hs as [_ [m Hm]]; [by right|].
    rewrite Hm in Hd |- *. simpl in Hd. f_equal. lia.
Qed.
End histogram.

Lemma sum_Z_ge_length (l : list Z) :
  Forall (fun n => 1 ≤ n) l → Z.of_nat (length l) ≤ sum_Z l.
Proof.
  induction 1 as [|n l Hn _ IH]; simpl; [lia|].
  unfold sum_Z in *. simpl. lia.
Qed.

Lemma sum_values_pos `{Countable K} (m : gmap K Z) :
  map_Forall (fun _ n => 1 ≤ n) m → m ≠ ∅ → 0 < sum_Z (map_to_list m).*2.
Proof.
  intros Hm Hne.
  assert (Forall (fun n => 1 ≤ n) (map_to_list m).*2) as HF.
  { apply Forall_fmap, Forall_forall. intros [k n] Hkn.
    apply elem_of_map_to_list in Hkn. exact (Hm k n Hkn). }
  apply sum_Z_ge_length in HF.
  destruct (map_to_list m) as [|kn l] eqn:E.
  - apply map_to_list_empty_iff in E. done.
  - simpl in HF. simpl. lia.
Qed.

Lemma foldl_mjoin {A B : Type} (f : B → A → B) (ls : list (list A)) (b : B) :
  foldl f b (mjoin ls) = foldl (fun b l => foldl f b l) b ls.
Proof.
  revert b. induction ls as [|l ls IH]; intros b; simpl; [done|].
  by rewrite foldl_app, IH.
Qed.

Lemma foldl_map {A B C : Type} (f : B → C → B) (g : A → C) (l : list A) (b : B) :
  foldl f b (g <$> l) = foldl (fun b x => f b (g x)) b l.
Proof. revert b. induction l as [|x l IH]; intros b; simpl; [done|]. apply IH. Qed.

Lemma count_words_flat (imgs : list img) :
  count_words imgs = foldl bump ∅ (all_tokens imgs).
Proof.
  unfold count_words, all_tokens, all_captions.
  rewrite foldl_mjoin, foldl_mjoin, foldl_map. done.
Qed.

Lemma sent_lengths_flat (imgs : list img) :
  sent_lengths_of imgs = foldl bump ∅ (length <$> all_captions imgs).
Proof.
  unfold sent_lengths_of, all_captions.
  rewrite foldl_map, foldl_mjoin, foldl_map. done.
Qed.

(** The table holds, for every word of the corpus, its number of
    occurrences, and nothing else. *)
Lemma count_words_lookup (imgs : list img) (w : string) (n : Z) :
  count_words imgs !! w = Some n ↔ n = word_count imgs w ∧ w ∈ all_tokens imgs.
Proof. rewrite count_words_flat. apply foldl_bump_Some. Qed.

Lemma count_words_get (imgs : list img) (w : string) :
  default 0 (count_words imgs !! w) = word_count imgs w.
Proof.
  rewrite count_words_flat, foldl_bump_lookup, lookup_empty. simpl. done.
Qed.

Lemma word_count_pos (imgs : list img) (w : string) :
  0 < word_count imgs w ↔ w ∈ all_tokens imgs.
Proof. apply kocc_pos. Qed.

Lemma word_count_nonneg (imgs : list img) (w : string) : 0 ≤ word_count imgs w.
Proof. apply kocc_nonneg. Qed.

Lemma count_words_positive (imgs : list img) :
  map_Forall (fun _ n => 1 ≤ n) (count_words imgs).
Proof.
  rewrite count_words_flat. apply foldl_bump_positive, map_Forall_empty.
Qed.

Lemma elem_of_vocab_of (imgs : list img) (t : Z) (w : string) :
  w ∈ vocab_of (count_words imgs) t ↔ w ∈ all_tokens imgs ∧ t < word_count imgs w.
Proof.
  unfold vocab_of, iteritems. rewrite list_elem_of_fmap. split.
  - intros [[w' n] [-> Hin]]. apply list_elem_of_filter in Hin as [Hlt Hin].
    apply elem_of_map_to_list, count_words_lookup in Hin as [-> Hw]. done.
  - intros [Hw Hlt]. exists (w, word_count imgs w). split; [done|].
    apply list_elem_of_filter. split; [done|].
    apply elem_of_map_to_list, count_words_lookup. done.
Qed.

Lemma elem_of_bad_words_of (imgs : list img) (t : Z) (w : string) :
  w ∈ bad_words_of (count_words imgs) t ↔ w ∈ all_tokens imgs ∧ word_count imgs w ≤ t.
Proof.
  unfold bad_words_of, iteritems. rewrite list_elem_of_fmap. split.
  - intros [[w' n] [-> Hin]]. apply list_elem_of_filter in Hin as [Hlt Hin].
    apply elem_of_map_to_list, count_words_lookup in Hin as [-> Hw]. done.
  - intros [Hw Hlt]. exists (w, word_count imgs w). split; [done|].
    apply list_elem_of_filter. split; [done|].
    apply elem_of_map_to_list, count_words_lookup. done.
Qed.

Lemma vocab_of_NoDup (counts : gmap string Z) (t : Z) : NoDup (vocab_of counts t).
Proof.
  unfold vocab_of, iteritems.
  eapply (NoDup_fmap_fst _).
  - intros w n1 n2 H1 H2.
    apply list_elem_of_filter in H1 as [_ H1], H2 as [_ H2].
    apply elem_of_map_to_list in H1, H2. congruence.
  - apply NoDup_filter, NoDup_map_to_list.
Qed.

(** [bad_count > 0] exactly when some word of the corpus is dropped. *)
Lemma bad_count_pos (imgs : list img) (t : Z) :
  0 < bad_count_of (count_words imgs) (bad_words_of (count_words imgs) t)
  ↔ ∃ w, w ∈ all_tokens imgs ∧ word_count imgs w ≤ t.
Proof.
  set (bad := bad_words_of (count_words imgs) t).
  assert (Forall (fun w => w ∈ all_tokens imgs ∧ word_count imgs w ≤ t) bad) as HF.
  { apply Forall_forall. intros w. apply elem_of_bad_words_of. }
  assert (∀ w, w ∈ all_tokens imgs ∧ word_count imgs w ≤ t → w ∈ bad) as Hin.
  { intros w. apply elem_of_bad_words_of. }
  clearbody bad. unfold bad_count_of. split.
  - destruct bad as [|w bad]; [unfold sum_Z; simpl; lia|].
    intros _. exists w. by inversion HF.
  - intros [w Hw]. apply Hin in Hw. clear Hin.
    induction HF as [|w' bad [Hw' _] HF IH]; [by apply elem_of_nil in Hw|].
    unfold sum_Z in *. csimpl. rewrite count_words_get.
    apply word_count_pos in Hw'.
    assert (0 ≤ foldr Z.add 0 ((fun w => default 0 (count_words imgs !! w)) <$> bad)).
    { clear. induction bad as [|x bad IH]; csimpl; [lia|].
      rewrite count_words_get. pose proof (word_count_nonneg imgs x). lia. }
    lia.
Qed.


Lemma some_word_dropped_iff (imgs : list img) (t : Z) :
  some_word_dropped imgs t ↔ ∃ w, w ∈ all_tokens imgs ∧ word_count imgs w ≤ t.
Proof. unfold some_word_dropped. by rewrite Exists_exists. Qed.

Lemma all_tokens_all_captions (imgs : list img) :
  all_tokens imgs ≠ [] → all_captions imgs ≠ [].
Proof. unfold all_tokens. intros H E. apply H. by rewrite E. Qed.

(** [build_vocab] raises exactly on a corpus without a single word;
    otherwise it returns the kept words, the sentinel when [bad_count] is
    positive, and the rewritten corpus. *)
Lemma build_vocab_unfold (imgs : list img) (p : params) :
  build_vocab imgs p =
    let t := word_count_threshold p in
    let counts := count_words imgs in
    if decide (all_tokens imgs = []) then Raise ZeroDivisionError
    else Ok (vocab_of counts t ++
               (if bool_decide (0 < bad_count_of counts (bad_words_of counts t))
                then [UNK] else []),
             set_final_captions counts t <$> imgs).
Proof.
  unfold build_vocab. cbv zeta.
  destruct (decide (all_tokens imgs = [])) as [Hnil|Hne].
  - rewrite bool_decide_eq_true_2; [done|].
    apply map_size_empty_iff. rewrite count_words_flat.
    by apply foldl_bump_empty.
  - assert (count_words imgs ≠ ∅) as Hc.
    { rewrite count_words_flat. by rewrite foldl_bump_empty. }
    rewrite bool_decide_eq_false_2 by (by rewrite map_size_empty_iff).
    pose proof (sum_values_pos _ (count_words_positive imgs) Hc) as Htot.
    unfold iteritems. rewrite bool_decide_eq_false_2 by lia.
    assert (sent_lengths_of imgs ≠ ∅) as Hs.
    { rewrite sent_lengths_flat, foldl_bump_empty.
      intros E. apply fmap_nil_inv in E. by apply all_tokens_all_captions in Hne. }
    rewrite bool_decide_eq_false_2 by (by rewrite map_size_empty_iff).
    assert (map_Forall (fun _ n => 1 ≤ n) (sent_lengths_of imgs)) as Hpos.
    { rewrite sent_lengths_flat. apply foldl_bump_positive, map_Forall_empty. }
    pose proof (sum_values_pos _ Hpos Hs) as Hlen.
    rewrite bool_decide_eq_false_2 by lia.
    destruct (bool_decide _); [done|]. by rewrite app_nil_r.
Qed.


Lemma build_vocab_inv (imgs : list img) (p : params) vocab imgs' :
  build_vocab imgs p = Ok (vocab, imgs') →
  let t := word_count_threshold p in
  all_tokens imgs ≠ [] ∧
  vocab = vocab_of (count_words imgs) t ++
            (if decide (some_word_dropped imgs t) then [UNK] else []) ∧
  imgs' = set_final_captions (count_words imgs) t <$> imgs.
Proof.
  rewrite build_vocab_unfold. cbv zeta.
  destruct (decide (all_tokens imgs = [])); [done|].
  intros [= <- <-]. split_and!; [done| |done].
  f_equal. destruct (decide (some_word_dropped _ _)) as [Hd|Hd].
  - rewrite bool_decide_eq_true_2; [done|].
    by apply bad_count_pos, some_word_dropped_iff.
  - rewrite bool_decide_eq_false_2; [done|].
    by rewrite bad_count_pos, <- some_word_dropped_iff.
Qed.

Lemma final_word_spec (imgs : list img) (t : Z) (w : string) :
  final_word (count_words imgs) t w =
    if decide (t < word_count imgs w) then w else UNK.
Proof.
  unfold final_word. rewrite count_words_get.
  destruct (decide _); [by rewrite bool_decide_eq_true_2|by rewrite bool_decide_eq_false_2].
Qed.


Lemma final_captions_lookup (imgs : list img) (t : Z) (im : img) (j k : nat) :
  token_at (final_caption (count_words imgs) t <$> processed_tokens im) j k =
    (fun w => if decide (t < word_count imgs w) then w else UNK)
      <$> token_at (processed_tokens im) j k.
Proof.
  unfold token_at. rewrite list_lookup_fmap.
  destruct (processed_tokens im !! j) as [txt|]; simpl; [|done].
  unfold final_caption. rewrite list_lookup_fmap.
  destruct (txt !! k) as [w|]; simpl; [|done].
  by rewrite final_word_spec.
Qed.

Lemma build_vocab_ex : build_vocab ex_corpus ex_params = Ok (ex_vocab, ex_final).
Proof. vm_compute. reflexivity. Qed.

(** ** The word-to-index table *)

Lemma wtoi_from_notin (vocab : list string) (i : nat) (m : gmap string Z) (w : string) :
  w ∉ vocab → wtoi_from i vocab m !! w = m !! w.
Proof.
  revert i m. induction vocab as [|x vocab IH]; intros i m Hw; simpl; [done|].
  apply not_elem_of_cons in Hw as [Hne Hw].
  rewrite IH by done. by rewrite lookup_insert_ne.
Qed.

(** A listed word is mapped to one plus one of its positions (the last). *)
Lemma wtoi_from_elem (vocab : list string) (i : nat) (m : gmap string Z) (w : string) :
  w ∈ vocab →
  ∃ k, vocab !! k = Some w ∧ wtoi_from i vocab m !! w = Some (Z.of_nat (i + k) + 1).
Proof.
  revert i m. induction vocab as [|x vocab IH]; intros i m Hw; simpl.
  - by apply elem_of_nil in Hw.
  - destruct (decide (w ∈ vocab)) as [Hin|Hnotin].
    + destruct (IH (S i) (<[x := Z.of_nat i + 1]> m) Hin) as (k & Hk & Hl).
      exists (S k). split; [done|]. rewrite Hl. f_equal. lia.
    + apply elem_of_cons in Hw as [->|?]; [|done].
      exists 0%nat. split; [done|].
      rewrite wtoi_from_notin by done. rewrite lookup_insert_eq. f_equal. lia.
Qed.

Lemma wtoi_of_elem (vocab : list string) (w : string) :
  w ∈ vocab →
  ∃ ix, wtoi_of vocab !! w = Some ix ∧ 1 ≤ ix ≤ Z.of_nat (length vocab)
        ∧ vocab !! Z.to_nat (ix - 1) = Some w.
Proof.
  intros Hw. destruct (wtoi_from_elem vocab 0 ∅ w Hw) as (k & Hk & Hl).
  exists (Z.of_nat (0 + k) + 1). split; [done|].
  pose proof (lookup_lt_Some _ _ _ Hk). split; [lia|].
  replace (Z.to_nat (Z.of_nat (0 + k) + 1 - 1)) with k by lia. done.
Qed.

Lemma wtoi_of_lookup (vocab : list string) (w : string) (ix : Z) :
  wtoi_of vocab !! w = Some ix →
  w ∈ vocab ∧ 1 ≤ ix ≤ Z.of_nat (length vocab).
Proof.
  intros Hl. destruct (decide (w ∈ vocab)) as [Hin|Hnotin].
  - split; [done|]. destruct (wtoi_of_elem vocab w Hin) as (ix' & Hl' & ? & _).
    congruence.
  - unfold wtoi_of in Hl. rewrite wtoi_from_notin in Hl by done.
    by rewrite lookup_empty in Hl.
Qed.

(** ** build_vocab: the claims *)

(** C1.  For a threshold [t >= 0], the vocabulary returned by
    [build_vocab] is a list [kept] of exactly the words whose corpus-wide
    count is strictly greater than [t], followed by the sentinel ['UNK']
    if and only if some word of the corpus has a count [<= t]; and every
    occurrence of such a dropped word, at any position of any caption of
    any record, is the sentinel in the final captions. *)
Theorem build_vocab_vocabulary (imgs : list img) (p : params)
    (vocab : list string) (imgs' : list img) :
  0 ≤ word_count_threshold p →
  build_vocab imgs p = Ok (vocab, imgs') →
  ∃ kept : list string,
    (∀ w, w ∈ kept ↔ word_count_threshold p < word_count imgs w) ∧
    ((∃ w, w ∈ all_tokens imgs ∧ word_count imgs w ≤ word_count_threshold p) →
       vocab = kept ++ [UNK]) ∧
    ((∀ w, w ∈ all_tokens imgs → word_count_threshold p < word_count imgs w) →
       vocab = kept) ∧
    (∀ i im j k w,
       imgs !! i = Some im →
       token_at (processed_tokens im) j k = Some w →
       word_count imgs w ≤ word_count_threshold p →
       ∃ im' finals, imgs' !! i = Some im' ∧ final_captions im' = Some finals ∧
                     token_at finals j k = Some UNK).
Proof.
  intros Ht Hb. apply build_vocab_inv in Hb as (Hne & -> & ->). cbv zeta.
  exists (vocab_of (count_words imgs) (word_count_threshold p)). split_and!.
  - intros w. rewrite elem_of_vocab_of. split; [tauto|].
    intros Hlt. split; [|done]. apply word_count_pos. lia.
  - intros Hd. apply some_word_dropped_iff in Hd. by rewrite decide_True.
  - intros Hall. rewrite decide_False; [by rewrite app_nil_r|].
    rewrite some_word_dropped_iff. intros (w & Hw & Hle).
    specialize (Hall w Hw). lia.
  - intros i im j k w Him Htok Hle.
    eexists _, _. rewrite list_lookup_fmap, Him. simpl.
    split_and!; [done..|].
    rewrite final_captions_lookup, Htok. simpl.
    by rewrite decide_False by lia.
Qed.

Lemma build_vocab_vocabulary_witness :
  ∃ kept : list string,
    (∀ w, w ∈ kept ↔ 1 < word_count ex_corpus w) ∧
    ((∃ w, w ∈ all_tokens ex_corpus ∧ word_count ex_corpus w ≤ 1) →
       ex_vocab = kept ++ [UNK]) ∧
    ((∀ w, w ∈ all_tokens ex_corpus → 1 < word_count ex_corpus w) →
       ex_vocab = kept) ∧
    (∀ i im j k w,
       ex_corpus !! i = Some im →
       token_at (processed_tokens im) j k = Some w →
       word_count ex_corpus w ≤ 1 →
       ∃ im' finals, ex_final !! i = Some im' ∧ final_captions im' = Some finals ∧
                     token_at finals j k = Some UNK).
Proof.
  apply (build_vocab_vocabulary ex_corpus ex_params ex_vocab ex_final).
  - simpl. lia.
  - vm_compute. reflexivity.
Defined.

(** C4.  [build_vocab] keeps every record and every caption in place; the
    final sequence of a caption has the length of its tokenised sequence,
    and position by position it holds the original word when the
    corpus-wide count of that word exceeds the threshold and the sentinel
    otherwise. *)
Theorem build_vocab_final_captions (imgs : list img) (p : params)
    (vocab : list string) (imgs' : list img) :
  build_vocab imgs p = Ok (vocab, imgs') →
  length imgs' = length imgs ∧
  ∀ i im, imgs !! i = Some im →
    ∃ im' finals,
      imgs' !! i = Some im' ∧
      processed_tokens im' = processed_tokens im ∧
      final_captions im' = Some finals ∧
      length finals = length (processed_tokens im) ∧
      ∀ j txt, processed_tokens im !! j = Some txt →
        ∃ cap, finals !! j = Some cap ∧
               length cap = length txt ∧
               ∀ k w, txt !! k = Some w →
                 cap !! k = Some (if decide (word_count_threshold p < word_count imgs w)
                                  then w else UNK).
Proof.
  intros Hb. apply build_vocab_inv in Hb as (Hne & _ & ->). cbv zeta.
  split; [by rewrite length_fmap|].
  intros i im Him. eexists _, _. rewrite list_lookup_fmap, Him. simpl.
  split_and!; [done..|by rewrite length_fmap|].
  intros j txt Htxt. eexists. rewrite list_lookup_fmap, Htxt. simpl.
  split_and!; [done|by unfold final_caption; rewrite length_fmap|].
  intros k w Hw. unfold final_caption. rewrite list_lookup_fmap, Hw. simpl.
  by rewrite final_word_spec.
Qed.

Lemma build_vocab_final_captions_witness :
  length ex_final = length ex_corpus ∧
  ∀ i im, ex_corpus !! i = Some im →
    ∃ im' finals,
      ex_final !! i = Some im' ∧
      processed_tokens im' = processed_tokens im ∧
      final_captions im' = Some finals ∧
      length finals = length (processed_tokens im) ∧
      ∀ j txt, processed_tokens im !! j = Some txt →
        ∃ cap, finals !! j = Some cap ∧
               length cap = length txt ∧
               ∀ k w, txt !! k = Some w →
                 cap !! k = Some (if decide (1 < word_count ex_corpus w)
                                  then w else UNK).
Proof.
  apply (build_vocab_final_captions ex_corpus ex_params ex_vocab ex_final).
  vm_compute. reflexivity.
Defined.

(** Every word of a final caption comes from a word of the corpus. *)
Lemma final_token_origin (imgs : list img) (t : Z) (im' : img)
    (finals : list caption) (cap : caption) (w : string) :
  im' ∈ set_final_captions (count_words imgs) t <$> imgs →
  final_captions im' = Some finals → cap ∈ finals → w ∈ cap →
  ∃ w0, w0 ∈ all_tokens imgs ∧
        w = if decide (t < word_count imgs w0) then w0 else UNK.
Proof.
  intros Him Hf Hcap Hw.
  apply list_elem_of_fmap in Him as (im & -> & Him). simpl in Hf.
  injection Hf as <-.
  apply list_elem_of_fmap in Hcap as (txt & -> & Htxt).
  apply list_elem_of_fmap in Hw as (w0 & -> & Hw0).
  exists w0. split; [|by rewrite final_word_spec].
  unfold all_tokens, all_captions.
  apply list_elem_of_join. exists txt. split; [done|].
  apply list_elem_of_join. exists (processed_tokens im). split; [done|].
  by apply list_elem_of_fmap_2.
Qed.

(** C9.  With the word-to-index table built from the vocabulary that
    [build_vocab] returns, the lookup [wtoi[w]] succeeds for every word
    [w] of every final caption, with an index between 1 and the size of
    the vocabulary; such a [w] is a kept word (count above the threshold)
    or the sentinel, and the vocabulary contains the sentinel whenever a
    final caption does. *)
Theorem final_tokens_in_wtoi (imgs : list img) (p : params)
    (vocab : list string) (imgs' : list img) :
  build_vocab imgs p = Ok (vocab, imgs') →
  ∀ im' finals cap w,
    im' ∈ imgs' → final_captions im' = Some finals → cap ∈ finals → w ∈ cap →
    (∃ ix, getitem (wtoi_of vocab) w = Ok ix ∧ 1 ≤ ix ≤ Z.of_nat (length vocab)) ∧
    (word_count_threshold p < word_count imgs w ∧ w ∈ all_tokens imgs ∨ w = UNK) ∧
    (w = UNK → UNK ∈ vocab).
Proof.
  intros Hb. apply build_vocab_inv in Hb as (Hne & -> & ->). cbv zeta.
  intros im' finals cap w Him Hf Hcap Hw.
  destruct (final_token_origin _ _ _ _ _ _ Him Hf Hcap Hw) as (w0 & Hw0 & Heq).
  set (t := word_count_threshold p) in *.
  assert (w ∈ vocab_of (count_words imgs) t ++
              (if decide (some_word_dropped imgs t) then [UNK] else [])) as Hin.
  { destruct (decide (t < word_count imgs w0)) as [Hlt|Hle]; subst w.
    - apply elem_of_app. left. by apply elem_of_vocab_of.
    - apply elem_of_app. right. rewrite decide_True; [by apply list_elem_of_singleton|].
      apply some_word_dropped_iff. exists w0. split; [done|lia]. }
  split_and!.
  - destruct (wtoi_of_elem _ _ Hin) as (ix & Hix & Hr & _).
    exists ix. unfold getitem. by rewrite Hix.
  - destruct (decide (t < word_count imgs w0)); subst w; [left|right]; done.
  - intros E. rewrite E in Hin. exact Hin.
Qed.

Lemma final_tokens_in_wtoi_witness :
  (∃ ix, getitem (wtoi_of ex_vocab) UNK = Ok ix ∧ 1 ≤ ix ≤ Z.of_nat (length ex_vocab)) ∧
  (1 < word_count ex_corpus UNK ∧ UNK ∈ all_tokens ex_corpus ∨ UNK = UNK) ∧
  (UNK = UNK → UNK ∈ ex_vocab).
Proof.
  apply (final_tokens_in_wtoi ex_corpus ex_params ex_vocab ex_final
           ltac:(vm_compute; reflexivity)
           (Img [["a"; "cat"]] (Some [["a"; UNK]]) None)
           [["a"; UNK]] ["a"; UNK] UNK).
  - unfold ex_final. apply elem_of_cons. right. apply elem_of_cons. by left.
  - reflexivity.
  - apply elem_of_cons. by left.
  - apply elem_of_cons. right. apply elem_of_cons. by left.
Defined.

(** ** assign_splits *)

Lemma assign_splits_length (imgs : list img) (p : params) :
  length (assign_splits imgs p) = length imgs.
Proof. unfold assign_splits. by rewrite length_imap. Qed.

Lemma assign_splits_lookup (imgs : list img) (p : params) (i : nat) :
  assign_splits imgs p !! i =
    set_split (split_label (num_val p) (num_test p) i) <$> imgs !! i.
Proof. unfold assign_splits. by rewrite list_lookup_imap. Qed.

Lemma assign_splits_final_captions (imgs : list img) (p : params) :
  final_captions <$> assign_splits imgs p = final_captions <$> imgs.
Proof.
  apply list_eq. intros i.
  rewrite !list_lookup_fmap, assign_splits_lookup.
  by destruct (imgs !! i).
Qed.

(** Counting a label through [imap]: the records at the positions whose
    label it is. *)
Lemma count_split_imap_from (label : string) (f : nat → string) (imgs : list img)
    (off : nat) :
  count_split label (imap (fun i im => set_split (f (off + i)%nat) im) imgs) =
    length (filter (fun i => f i = label) (seq off (length imgs))).
Proof.
  unfold count_split. revert off.
  induction imgs as [|im imgs IH]; intros off; [done|].
  rewrite imap_cons. cbn [length seq]. rewrite !filter_cons.
  rewrite (imap_ext _ (fun i im => set_split (f (S off + i)%nat) im))
    by (intros; simpl; f_equal; f_equal; lia).
  specialize (IH (S off)). cbn [split set_split].
  replace (off + 0)%nat with off by lia.
  destruct (decide (Some (f off) = Some label)) as [E|E];
    destruct (decide (f off = label)) as [E'|E']; cbn [length];
    try rewrite IH; try done; congruence.
Qed.

Lemma count_split_imap (label : string) (f : nat → string) (imgs : list img) :
  count_split label (imap (fun i im => set_split (f i) im) imgs) =
    length (filter (fun i => f i = label) (seq 0 (length imgs))).
Proof. apply (count_split_imap_from label f imgs 0). Qed.

Lemma length_filter_seq_lt (a n : nat) :
  length (filter (fun i => i < a)%nat (seq 0 n)) = (a `min` n)%nat.
Proof.
  induction n as [|n IH]; [simpl; lia|].
  rewrite seq_S, filter_app, length_app, IH. simpl.
  rewrite filter_cons, filter_nil.
  destruct (decide (n < a)%nat); simpl; lia.
Qed.

Lemma length_filter_seq_between (a b n : nat) :
  (a ≤ b)%nat →
  length (filter (fun i => ¬ (i < a)%nat ∧ (i < b)%nat) (seq 0 n))
  = (b `min` n - a `min` n)%nat.
Proof.
  intros Hab. induction n as [|n IH]; [simpl; lia|].
  rewrite seq_S, filter_app, length_app, IH. simpl.
  rewrite filter_cons, filter_nil.
  destruct (decide (¬ (n < a)%nat ∧ (n < b)%nat)); simpl; lia.
Qed.

Lemma length_filter_seq_ge (b n : nat) :
  length (filter (fun i => ¬ (i < b)%nat) (seq 0 n)) = (n - b `min` n)%nat.
Proof.
  induction n as [|n IH]; [simpl; lia|].
  rewrite seq_S, filter_app, length_app, IH. simpl.
  rewrite filter_cons, filter_nil.
  destruct (decide (¬ (n < b)%nat)); simpl; lia.
Qed.

Lemma length_filter_ext {A : Type} (P Q : A → Prop)
    `{∀ x, Decision (P x)} `{∀ x, Decision (Q x)} (l : list A) :
  (∀ x, P x ↔ Q x) → length (filter P l) = length (filter Q l).
Proof.
  intros HPQ. induction l as [|x l IH]; [done|].
  rewrite !filter_cons.
  destruct (decide (P x)) as [HP|HP], (decide (Q x)) as [HQ|HQ]; simpl;
    try (by rewrite IH); exfalso; [apply HQ, HPQ, HP | apply HP, HPQ, HQ].
Qed.

Lemma split_label_val (nv nt : Z) (i : nat) :
  0 ≤ nv → 0 ≤ nt →
  split_label nv nt i = "val" ↔ (i < Z.to_nat nv)%nat.
Proof.
  intros Hv Ht. unfold split_label.
  repeat case_bool_decide; split; intros; try done; try lia.
Qed.

Lemma split_label_test (nv nt : Z) (i : nat) :
  0 ≤ nv → 0 ≤ nt →
  split_label nv nt i = "test" ↔
  ¬ (i < Z.to_nat nv)%nat ∧ (i < Z.to_nat nv + Z.to_nat nt)%nat.
Proof.
  intros Hv Ht. unfold split_label.
  repeat case_bool_decide; split; intros; try done; try lia.
Qed.

Lemma split_label_train (nv nt : Z) (i : nat) :
  0 ≤ nv → 0 ≤ nt →
  split_label nv nt i = "train" ↔ ¬ (i < Z.to_nat nv + Z.to_nat nt)%nat.
Proof.
  intros Hv Ht. unfold split_label.
  repeat case_bool_decide; split; intros; try done; try lia.
Qed.

(** The sizes of the three partitions, for any non-negative split sizes. *)
Lemma assign_splits_counts (imgs : list img) (p : params) :
  0 ≤ num_val p → 0 ≤ num_test p →
  let n := length imgs in
  let nv := Z.to_nat (num_val p) in
  let nt := Z.to_nat (num_test p) in
  count_split "val" (assign_splits imgs p) = (nv `min` n)%nat ∧
  count_split "test" (assign_splits imgs p) = ((nv + nt) `min` n - nv `min` n)%nat ∧
  count_split "train" (assign_splits imgs p) = (n - (nv + nt) `min` n)%nat.
Proof.
  intros Hv Ht. cbv zeta. unfold assign_splits. rewrite !count_split_imap.
  split_and!.
  - rewrite <- length_filter_seq_lt. apply length_filter_ext.
    intros i. by apply split_label_val.
  - rewrite <- length_filter_seq_between by lia. apply length_filter_ext.
    intros i. by apply split_label_test.
  - rewrite <- length_filter_seq_ge. apply length_filter_ext.
    intros i. by apply split_label_train.
Qed.

(** C6.  With [num_val >= 0], [num_test >= 0] and
    [num_val + num_test <= len(imgs)], [assign_splits] keeps every record
    and labels the record at position [i] ['val'] when [i < num_val],
    ['test'] when [num_val <= i < num_val + num_test] and ['train']
    otherwise; every record carries one label, exactly [num_val] records
    are ['val'], [num_test] are ['test'], the remaining ones ['train'],
    and the three sizes add up to the size of the corpus. *)
Theorem assign_splits_partition (imgs : list img) (p : params) :
  0 ≤ num_val p → 0 ≤ num_test p →
  num_val p + num_test p ≤ Z.of_nat (length imgs) →
  length (assign_splits imgs p) = length imgs ∧
  (∀ i im, imgs !! i = Some im →
     ∃ im', assign_splits imgs p !! i = Some im' ∧
            processed_tokens im' = processed_tokens im ∧
            final_captions im' = final_captions im ∧
            split im' = Some (if decide (Z.of_nat i < num_val p) then "val"
                              else if decide (Z.of_nat i < num_val p + num_test p)
                                   then "test" else "train")) ∧
  Z.of_nat (count_split "val" (assign_splits imgs p)) = num_val p ∧
  Z.of_nat (count_split "test" (assign_splits imgs p)) = num_test p ∧
  Z.of_nat (count_split "train" (assign_splits imgs p)) =
    Z.of_nat (length imgs) - num_val p - num_test p ∧
  (count_split "val" (assign_splits imgs p)
   + count_split "test" (assign_splits imgs p)
   + count_split "train" (assign_splits imgs p) = length imgs)%nat.
Proof.
  intros Hv Ht Hle.
  destruct (assign_splits_counts imgs p Hv Ht) as (Cv & Ct & Cr).
  split_and!; [apply assign_splits_length| |lia..].
  intros i im Him. eexists. rewrite assign_splits_lookup, Him. simpl.
  split_and!; [done..|]. f_equal. unfold split_label.
  repeat case_bool_decide; repeat case_decide; try done; lia.
Qed.

Lemma assign_splits_partition_witness :
  Z.of_nat (count_split "val" (assign_splits ex_corpus ex_params)) = 1 ∧
  Z.of_nat (count_split "train" (assign_splits ex_corpus ex_params)) = 1.
Proof.
  destruct (assign_splits_partition ex_corpus ex_params)
    as (_ & _ & Hv & _ & Hr & _).
  - simpl. lia.
  - simpl. lia.
  - simpl. lia.
  - split; [exact Hv | exact Hr].
Defined.

(** ** encode_captions: the loops, one by one *)

Lemma bind_Ok {A B : Type} (a : A) (k : A → result B) : (Ok a ≫= k) = k a.
Proof. done. Qed.

Lemma bind_Raise {A B : Type} (e : exn) (k : A → result B) : (Raise e ≫= k) = Raise e.
Proof. done. Qed.

Lemma mapM_cons {A B : Type} (f : A → result B) (x : A) (l : list A) :
  mapM f (x :: l) = (y ← f x; k ← mapM f l; Ok (y :: k)).
Proof. done. Qed.

Lemma mapM_nil {A B : Type} (f : A → result B) : mapM f [] = Ok [].
Proof. done. Qed.

Lemma store_in_range (a : list Z) (i : nat) (v : Z) :
  (i < length a)%nat → store a i v = Ok (<[i := uint32 v]> a).
Proof. intros Hi. unfold store. by rewrite bool_decide_eq_true_2. Qed.

Lemma encode_word_ge (ml : Z) (wtoi : gmap string Z) (j k : nat) (w : string)
    (Li : list (list Z)) :
  ml ≤ Z.of_nat k → encode_word ml wtoi j k w Li = Ok Li.
Proof. intros Hk. unfold encode_word. by rewrite bool_decide_eq_false_2 by lia. Qed.

Lemma encode_word_lt (ml : Z) (wtoi : gmap string Z) (j k : nat) (w : string)
    (Li : list (list Z)) :
  Z.of_nat k < ml →
  encode_word ml wtoi j k w Li = (ix ← getitem wtoi w; store2 Li j k ix).
Proof. intros Hk. unfold encode_word. by rewrite bool_decide_eq_true_2 by lia. Qed.

(** Past the width of the row the inner loop changes nothing. *)
Lemma encode_words_skip (ml : Z) (wtoi : gmap string Z) (j : nat) (s : caption) :
  ∀ (k0 : nat) (Li : list (list Z)),
    ml ≤ Z.of_nat k0 → for_enumerate (encode_word ml wtoi j) k0 s Li = Ok Li.
Proof.
  induction s as [|w s IH]; intros k0 Li Hk; simpl; [done|].
  rewrite encode_word_ge by lia.
  rewrite bind_Ok. apply IH. lia.
Qed.

(** The inner loop over the words of one caption writes the row [j]. *)
Lemma encode_words_eq (ml : Z) (wtoi : gmap string Z) (j : nat) (s : caption) :
  ∀ (k0 : nat) (pre : list Z) (Li : list (list Z)),
    (k0 ≤ Z.to_nat ml)%nat → length pre = k0 →
    Li !! j = Some (pre ++ replicate (Z.to_nat ml - k0) 0) →
    for_enumerate (encode_word ml wtoi j) k0 s Li =
      (ids ← mapM (getitem wtoi) (take (Z.to_nat ml - k0) s);
       Ok (<[j := pre ++ (uint32 <$> ids)
                    ++ replicate (Z.to_nat ml - k0 - length ids) 0]> Li)).
Proof.
  induction s as [|w s IH]; intros k0 pre Li Hk Hpre Hrow.
  - rewrite take_nil, mapM_nil, bind_Ok. simpl.
    rewrite Nat.sub_0_r, list_insert_id; done.
  - destruct (decide (k0 < Z.to_nat ml)%nat) as [Hlt|Hge].
    + replace (Z.to_nat ml - k0)%nat with (S (Z.to_nat ml - S k0)) by lia.
      rewrite firstn_cons, mapM_cons. cbn [for_enumerate].
      rewrite encode_word_lt by lia.
      destruct (getitem wtoi w) as [ix|e]; [|done].
      rewrite !bind_Ok. unfold store2. rewrite Hrow.
      rewrite store_in_range
        by (rewrite length_app, length_replicate; lia).
      rewrite !bind_Ok.
      assert (<[k0 := uint32 ix]> (pre ++ replicate (Z.to_nat ml - k0) 0)
              = (pre ++ [uint32 ix]) ++ replicate (Z.to_nat ml - S k0) 0) as ->.
      { rewrite insert_app_r_alt by lia.
        replace (k0 - length pre)%nat with 0%nat by lia.
        replace (Z.to_nat ml - k0)%nat with (S (Z.to_nat ml - S k0)) by lia.
        simpl. by rewrite <- app_assoc. }
      rewrite (IH (S k0) (pre ++ [uint32 ix])); first last.
      { apply list_lookup_insert_eq. by eapply lookup_lt_Some. }
      { rewrite length_app. simpl. lia. }
      { lia. }
      destruct (mapM (getitem wtoi) (take (Z.to_nat ml - S k0) s)) as [ids|e];
        [|done].
      rewrite !bind_Ok. f_equal. rewrite list_insert_insert_eq. f_equal.
      rewrite <- app_assoc. simpl. do 3 f_equal; lia.
    + rewrite encode_words_skip by lia.
      replace (Z.to_nat ml - k0)%nat with 0%nat by lia.
      rewrite take_0, mapM_nil, bind_Ok. simpl.
      rewrite list_insert_id; [done|].
      rewrite Hrow. replace (Z.to_nat ml - k0)%nat with 0%nat by lia. done.
Qed.

Lemma encode_row_unfold (ml : Z) (wtoi : gmap string Z) (s : caption) :
  encode_row ml wtoi s =
    (ids ← mapM (getitem wtoi) (take (Z.to_nat ml) s);
     Ok ((uint32 <$> ids) ++ replicate (Z.to_nat ml - length ids) 0)).
Proof. done. Qed.

Lemma encode_caption_unfold (ml : Z) (wtoi : gmap string Z) (j : nat) (s : caption)
    (Li : list (list Z)) (lengths : list Z) (cc : nat) :
  encode_caption ml wtoi j s (Li, lengths, cc) =
    (lengths' ← store lengths cc (Z.min ml (Z.of_nat (length s)));
     Li' ← for_enumerate (encode_word ml wtoi j) 0 s Li;
     Ok (Li', lengths', S cc)).
Proof. done. Qed.

(** The loop over the captions of one record fills [Li] row by row and
    [label_length] cell by cell. *)
Lemma encode_captions_rows (ml : Z) (wtoi : gmap string Z) (cs : list caption) :
  ∀ (rows0 : list (list Z)) (L0 : list Z) (extra : nat),
    for_enumerate (encode_caption ml wtoi) (length rows0) cs
      (rows0 ++ replicate (length cs) (replicate (Z.to_nat ml) 0),
       L0 ++ replicate (length cs + extra) 0, length L0) =
    (rows ← mapM (encode_row ml wtoi) cs;
     Ok (rows0 ++ rows, L0 ++ (caption_length ml <$> cs) ++ replicate extra 0,
         (length L0 + length cs)%nat)).
Proof.
  induction cs as [|s cs IH]; intros rows0 L0 extra.
  - rewrite mapM_nil, bind_Ok. simpl. by rewrite Nat.add_0_r.
  - cbn [for_enumerate]. rewrite encode_caption_unfold, mapM_cons.
    rewrite store_in_range by (rewrite length_app, length_replicate; simpl; lia).
    rewrite bind_Ok.
    rewrite (encode_words_eq ml wtoi (length rows0) s 0 []); first last.
    { rewrite lookup_app_r by lia. rewrite Nat.sub_diag. simpl.
      by rewrite Nat.sub_0_r. }
    { done. }
    { lia. }
    rewrite (encode_row_unfold ml wtoi s), Nat.sub_0_r.
    destruct (mapM (getitem wtoi) (take (Z.to_nat ml) s)) as [ids|e]; [|done].
    rewrite !bind_Ok. simpl app at 1.
    set (row := (uint32 <$> ids) ++ replicate (Z.to_nat ml - length ids) 0).
    assert (<[length rows0 := row]>
              (rows0 ++ replicate (length (s :: cs)) (replicate (Z.to_nat ml) 0))
            = (rows0 ++ [row]) ++ replicate (length cs) (replicate (Z.to_nat ml) 0))
      as ->.
    { rewrite insert_app_r_alt by lia. rewrite Nat.sub_diag. simpl.
      by rewrite <- app_assoc. }
    assert (<[length L0 := uint32 (Z.min ml (Z.of_nat (length s)))]>
              (L0 ++ replicate (length (s :: cs) + extra) 0)
            = (L0 ++ [caption_length ml s]) ++ replicate (length cs + extra) 0)
      as ->.
    { rewrite insert_app_r_alt by lia. rewrite Nat.sub_diag. simpl.
      by rewrite <- app_assoc. }
    replace (S (length L0)) with (length (L0 ++ [caption_length ml s]))
      by (rewrite length_app; simpl; lia).
    replace (S (length rows0)) with (length (rows0 ++ [row]))
      by (rewrite length_app; simpl; lia).
    rewrite IH.
    destruct (mapM (encode_row ml wtoi) cs) as [rows|e]; [|done].
    rewrite !bind_Ok. rewrite <- !app_assoc. simpl.
    do 2 f_equal. rewrite length_app. simpl. lia.
Qed.

Lemma encode_img_unfold (ml : Z) (wtoi : gmap string Z) (i : nat) (im : img)
    (st : enc_state) :
  encode_img ml wtoi i im st =
    (cs ← get_final_captions im;
     _ ← assert (bool_decide (0 < length cs)%nat) "error: some image has no captions";
     Li ← zeros2 (length cs) ml;
     r ← for_enumerate (encode_caption ml wtoi) 0 cs
           (Li, label_length st, caption_counter st);
     starts ← store (label_start_ix st) i (counter st);
     ends ← store (label_end_ix st) i (counter st + Z.of_nat (length cs) - 1);
     Ok {| label_arrays := label_arrays st ++ [r.1.1];
           label_start_ix := starts;
           label_end_ix := ends;
           label_length := r.1.2;
           caption_counter := r.2;
           counter := counter st + Z.of_nat (length cs) |}).
Proof.
  unfold encode_img. destruct (get_final_captions im) as [cs|e]; [|done].
  rewrite !bind_Ok. destruct (assert _ _) as [[]|e]; [|done].
  rewrite !bind_Ok. destruct (zeros2 _ _) as [Li|e]; [|done].
  rewrite !bind_Ok. destruct (for_enumerate _ _ _ _) as [[[Li' l'] c']|e]; done.
Qed.

Lemma encode_block_unfold (ml : Z) (wtoi : gmap string Z) (im : img) :
  encode_block ml wtoi im =
    (cs ← get_final_captions im;
     _ ← assert (bool_decide (0 < length cs)%nat) "error: some image has no captions";
     _ ← zeros2 (length cs) ml;
     mapM (encode_row ml wtoi) cs).
Proof. done. Qed.

Lemma finals_of_Some (im : img) (cs : list caption) :
  get_final_captions im = Ok cs → finals_of im = cs.
Proof.
  unfold get_final_captions, finals_of.
  destruct (final_captions im); [|done]. by intros [= ->].
Qed.

(** The loop over the records. *)
Lemma encode_imgs_eq (ml : Z) (wtoi : gmap string Z) (rest : list img) :
  ∀ (st : enc_state) (S0 E0 L0 : list Z) (extra : nat),
    length E0 = length S0 →
    label_start_ix st = S0 ++ replicate (length rest) 0 →
    label_end_ix st = E0 ++ replicate (length rest) 0 →
    label_length st =
      L0 ++ replicate (length (mjoin (finals_of <$> rest)) + extra) 0 →
    caption_counter st = length L0 →
    for_enumerate (encode_img ml wtoi) (length S0) rest st =
      (blocks ← mapM (encode_block ml wtoi) rest;
       Ok {| label_arrays := label_arrays st ++ blocks;
             label_start_ix := S0 ++ starts_from (counter st) (finals_of <$> rest);
             label_end_ix := E0 ++ ends_from (counter st) (finals_of <$> rest);
             label_length :=
               L0 ++ (caption_length ml <$> mjoin (finals_of <$> rest))
                  ++ replicate extra 0;
             caption_counter := (length L0 + length (mjoin (finals_of <$> rest)))%nat;
             counter := counter st + Z.of_nat (length (mjoin (finals_of <$> rest))) |}).
Proof.
  induction rest as [|im rest IH]; intros st S0 E0 L0 extra HE HS HEn HL Hcc.
  - rewrite mapM_nil, bind_Ok. destruct st. simpl in *. subst.
    rewrite !app_nil_r. f_equal. f_equal; [lia|lia].
  - cbn [for_enumerate]. rewrite encode_img_unfold, mapM_cons, encode_block_unfold.
    destruct (get_final_captions im) as [cs|e] eqn:Hcs; [|done].
    rewrite !bind_Ok. destruct (assert _ _) as [[]|e]; [|done].
    rewrite !bind_Ok. unfold zeros2.
    destruct (bool_decide (ml < 0)); [done|]. rewrite !bind_Ok.
    apply finals_of_Some in Hcs.
    assert (length (mjoin (finals_of <$> im :: rest))
            = (length cs + length (mjoin (finals_of <$> rest)))%nat) as Hlen.
    { csimpl. by rewrite length_app, Hcs. }
    rewrite HL, Hcc, Hlen, <- Nat.add_assoc.
    pose proof (encode_captions_rows ml wtoi cs [] L0
                  (length (mjoin (finals_of <$> rest)) + extra)) as Hrows.
    simpl in Hrows. rewrite Hrows. clear Hrows.
    destruct (mapM (encode_row ml wtoi) cs) as [rows|e]; [|done].
    rewrite !bind_Ok. rewrite HS, HEn.
    rewrite !store_in_range by (rewrite length_app, length_replicate; simpl; lia).
    rewrite !bind_Ok. cbn [fst snd].
    rewrite insert_app_r_alt by lia. rewrite Nat.sub_diag.
    rewrite (insert_app_r_alt E0) by lia. rewrite HE, Nat.sub_diag.
    cbn [length replicate]. simpl insert.
    replace (S (length S0)) with (length (S0 ++ [uint32 (counter st)]))
      by (rewrite length_app; simpl; lia).
    rewrite (IH _ (S0 ++ [uint32 (counter st)])
                  (E0 ++ [uint32 (counter st + Z.of_nat (length cs) - 1)])
                  (L0 ++ (caption_length ml <$> cs)) extra); first last.
    { simpl. rewrite length_app, length_fmap. done. }
    { simpl. by rewrite <- !app_assoc. }
    { simpl. by rewrite <- app_assoc. }
    { simpl. by rewrite <- app_assoc. }
    { rewrite !length_app. simpl. lia. }
    destruct (mapM (encode_block ml wtoi) rest) as [blocks|e]; [|done].
    rewrite !bind_Ok. cbn [label_arrays counter]. csimpl. rewrite Hcs.
    f_equal. f_equal.
    + by rewrite <- app_assoc.
    + by rewrite <- app_assoc.
    + by rewrite <- app_assoc.
    + rewrite fmap_app, <- !app_assoc. done.
    + rewrite !length_app, length_fmap. lia.
    + lia.
Qed.

Lemma mapM_Ok_Forall2 {A B : Type} (f : A → result B) (l : list A) (k : list B) :
  mapM f l = Ok k ↔ Forall2 (fun x y => f x = Ok y) l k.
Proof.
  revert k. induction l as [|x l IH]; intros k.
  - rewrite mapM_nil. split.
    + intros [= <-]. constructor.
    + intros Hk. by inversion Hk.
  - rewrite mapM_cons. split.
    + destruct (f x) as [y|e] eqn:Hy; [|done]. rewrite bind_Ok.
      destruct (mapM f l) as [k'|e] eqn:Hk'; [|done].
      rewrite bind_Ok. intros [= <-]. constructor; [done|]. by apply IH.
    + intros Hk. inversion Hk as [|? y ? k' Hy Hk']; subst.
      apply IH in Hk'. by rewrite Hy, bind_Ok, Hk', bind_Ok.
Qed.

Lemma mapM_Ok_length {A B : Type} (f : A → result B) (l : list A) (k : list B) :
  mapM f l = Ok k → length k = length l.
Proof. intros H. apply mapM_Ok_Forall2, Forall2_length in H. done. Qed.

Lemma mapM_Ok_app {A B : Type} (f : A → result B) (l1 l2 : list A) (k1 k2 : list B) :
  mapM f l1 = Ok k1 → mapM f l2 = Ok k2 → mapM f (l1 ++ l2) = Ok (k1 ++ k2).
Proof. rewrite !mapM_Ok_Forall2. apply Forall2_app. Qed.



Lemma total_captions_Ok (imgs : list img) (M : nat) :
  total_captions imgs = Ok M → M = length (all_final_captions imgs).
Proof.
  revert M. induction imgs as [|im imgs IH]; intros M; simpl.
  - by intros [= <-].
  - destruct (get_final_captions im) as [cs|e] eqn:Hcs; [|done].
    rewrite bind_Ok. destruct (total_captions imgs) as [m|e]; [|done].
    rewrite bind_Ok. intros [= <-].
    unfold all_final_captions, final_lists. csimpl.
    rewrite length_app, (finals_of_Some _ _ Hcs). f_equal. by apply IH.
Qed.

Lemma encode_block_Ok (ml : Z) (wtoi : gmap string Z) (im : img) (rows : list (list Z)) :
  encode_block ml wtoi im = Ok rows ↔
  final_captions im = Some (finals_of im) ∧ finals_of im ≠ [] ∧ 0 ≤ ml ∧
  mapM (encode_row ml wtoi) (finals_of im) = Ok rows.
Proof.
  rewrite encode_block_unfold. unfold get_final_captions, finals_of, zeros2.
  destruct (final_captions im) as [cs|]; simpl.
  2: { split; [done|]. intros (E & _). done. }
  destruct cs as [|s cs]; simpl.
  { split; [done|]. intros (_ & ? & _). done. }
  case_bool_decide.
  - rewrite bind_Raise. split; [done|]. intros (_ & _ & ? & _). lia.
  - rewrite bind_Ok. split.
    + intros ?. split_and!; [done..|lia|done].
    + by intros (_ & _ & _ & ?).
Qed.

Lemma encode_blocks_Ok (ml : Z) (wtoi : gmap string Z) (imgs : list img)
    (blocks : list (list (list Z))) :
  mapM (encode_block ml wtoi) imgs = Ok blocks →
  mapM (encode_row ml wtoi) (all_final_captions imgs) = Ok (mjoin blocks).
Proof.
  revert blocks. induction imgs as [|im imgs IH]; intros blocks.
  - rewrite mapM_nil. by intros [= <-].
  - rewrite mapM_cons.
    destruct (encode_block ml wtoi im) as [rows|e] eqn:Hrows; [|done].
    rewrite bind_Ok.
    destruct (mapM (encode_block ml wtoi) imgs) as [blocks'|e]; [|done].
    rewrite bind_Ok. intros [= <-].
    apply encode_block_Ok in Hrows as (_ & _ & _ & Hrows).
    unfold all_final_captions, final_lists. csimpl.
    apply mapM_Ok_app; [done|]. by apply IH.
Qed.

(** The loops end in [final_state], or raise what [total_captions] or the
    first failing record raises. *)
Lemma encode_loop_eq (imgs : list img) (p : params) (wtoi : gmap string Z) :
  encode_loop imgs p wtoi =
    (M ← total_captions imgs;
     blocks ← mapM (encode_block (max_length p) wtoi) imgs;
     Ok (M, final_state imgs p blocks)).
Proof.
  unfold encode_loop. cbv zeta.
  destruct (total_captions imgs) as [M|e] eqn:HM; [|done].
  rewrite !bind_Ok. apply total_captions_Ok in HM.
  pose proof (encode_imgs_eq (max_length p) wtoi imgs
    {| label_arrays := []; label_start_ix := replicate (length imgs) 0;
       label_end_ix := replicate (length imgs) 0; label_length := replicate M 0;
       caption_counter := 0; counter := 1 |} [] [] [] 0) as Hloop.
  simpl in Hloop. rewrite Hloop; [|done..|by rewrite HM, Nat.add_0_r|done].
  clear Hloop.
  destruct (mapM (encode_block (max_length p) wtoi) imgs) as [blocks|e]; [|done].
  rewrite !bind_Ok. unfold final_state. by rewrite app_nil_r.
Qed.

(** The imperative encoder and the functional one agree on every input,
    in the result and in the exception. *)
Lemma encode_captions_eq (imgs : list img) (p : params) (wtoi : gmap string Z) :
  encode_captions imgs p wtoi = encode_captions_fun imgs p wtoi.
Proof.
  unfold encode_captions, encode_captions_fun. rewrite encode_loop_eq. cbv zeta.
  destruct (total_captions imgs) as [M|e] eqn:HM; [|done].
  rewrite !bind_Ok. apply total_captions_Ok in HM.
  destruct (mapM (encode_block (max_length p) wtoi) imgs) as [blocks|e] eqn:Hb;
    [|done].
  rewrite !bind_Ok. cbn [final_state label_arrays label_start_ix label_end_ix label_length].
  destruct (concatenate blocks) as [L|e] eqn:HL; [|done].
  rewrite !bind_Ok.
  assert (length L = M) as HLM.
  { apply encode_blocks_Ok, mapM_Ok_length in Hb.
    unfold concatenate in HL. destruct blocks; [done|].
    injection HL as HL. rewrite <- HL, HM. exact Hb. }
  rewrite bool_decide_eq_true_2 by done.
  change (assert true "lengths don't match? that's weird") with (Ok tt).
  rewrite bind_Ok. done.
Qed.

(** ** encode_captions: when it returns, and what *)

Lemma forallb_pos (l : list Z) :
  forallb (fun x => bool_decide (0 < x)) l = true ↔ Forall (fun x => 0 < x) l.
Proof.
  induction l as [|x l IH]; simpl.
  - split; [constructor|done].
  - rewrite andb_true_iff, bool_decide_eq_true, IH, Forall_cons. done.
Qed.

Lemma total_captions_intro (imgs : list img) :
  Forall has_captions imgs →
  total_captions imgs = Ok (length (all_final_captions imgs)).
Proof.
  induction 1 as [|im imgs [Him _] _ IH]; [done|].
  simpl. unfold get_final_captions. rewrite Him, bind_Ok, IH, bind_Ok.
  unfold all_final_captions, final_lists. csimpl. by rewrite length_app.
Qed.

Lemma encode_blocks_inv (ml : Z) (wtoi : gmap string Z) (imgs : list img)
    (blocks : list (list (list Z))) :
  mapM (encode_block ml wtoi) imgs = Ok blocks →
  Forall has_captions imgs ∧ (imgs ≠ [] → 0 ≤ ml) ∧ length blocks = length imgs.
Proof.
  intros Hb. pose proof (mapM_Ok_length _ _ _ Hb) as Hlen.
  apply mapM_Ok_Forall2 in Hb. split_and!; [| |done].
  - clear Hlen. induction Hb as [|im rows imgs blocks Hrows _ IH]; constructor; [|done].
    apply encode_block_Ok in Hrows as (? & ? & _). by split.
  - destruct Hb as [|im rows imgs blocks Hrows _]; [done|]. intros _.
    by apply encode_block_Ok in Hrows as (_ & _ & ? & _).
Qed.

Lemma encode_blocks_intro (ml : Z) (wtoi : gmap string Z) (imgs : list img) :
  ∀ L : list (list Z),
    0 ≤ ml → Forall has_captions imgs →
    mapM (encode_row ml wtoi) (all_final_captions imgs) = Ok L →
    ∃ blocks, mapM (encode_block ml wtoi) imgs = Ok blocks ∧ mjoin blocks = L.
Proof.
  intros L Hml Hall. revert L.
  induction Hall as [|im imgs [Him Hne] _ IH]; intros L HL.
  - exists []. change (Ok [] = Ok L) in HL. injection HL as <-. done.
  - unfold all_final_captions, final_lists in HL. csimpl in HL.
    apply mapM_Ok_Forall2, Forall2_app_inv_l in HL as (rows & L' & Hrows & HL' & ->).
    apply mapM_Ok_Forall2 in Hrows, HL'.
    destruct (IH L' HL') as (blocks & Hb & <-).
    exists (rows :: blocks). split; [|done].
    rewrite mapM_cons, Hb.
    assert (encode_block ml wtoi im = Ok rows) as ->; [|done].
    by apply encode_block_Ok.
Qed.

(** [encode_captions] returns exactly when the corpus is not empty, every
    record has final captions and at least one, [max_length] is not
    negative, every word within the first [max_length] of a caption is a
    key of [wtoi], and every cell of [label_length] is positive; the
    arrays it then returns are those of the functional description. *)
Lemma encode_captions_Ok (imgs : list img) (p : params) (wtoi : gmap string Z)
    (L : list (list Z)) (starts ends lengths : list Z) :
  encode_captions imgs p wtoi = Ok (L, starts, ends, lengths) ↔
  imgs ≠ [] ∧ 0 ≤ max_length p ∧ Forall has_captions imgs ∧
  mapM (encode_row (max_length p) wtoi) (all_final_captions imgs) = Ok L ∧
  Forall (fun s => 0 < caption_length (max_length p) s) (all_final_captions imgs) ∧
  starts = starts_from 1 (final_lists imgs) ∧
  ends = ends_from 1 (final_lists imgs) ∧
  lengths = caption_length (max_length p) <$> all_final_captions imgs.
Proof.
  rewrite encode_captions_eq. unfold encode_captions_fun. cbv zeta. split.
  - destruct (total_captions imgs) as [M|e]; [|done]. rewrite bind_Ok.
    destruct (mapM _ imgs) as [blocks|e] eqn:Hb; [|done]. rewrite bind_Ok.
    pose proof (encode_blocks_inv _ _ _ _ Hb) as (Hall & Hml & Hlen).
    apply encode_blocks_Ok in Hb.
    unfold concatenate. destruct blocks as [|b blocks'] eqn:Eb; [done|].
    rewrite bind_Ok.
    assert (imgs ≠ []) as Hne by (by intros ->).
    destruct (forallb _ _) eqn:Hpos; [|done]. simpl assert. rewrite bind_Ok.
    apply forallb_pos in Hpos. rewrite Forall_fmap in Hpos.
    intros [= <- <- <- <-]. split_and!; auto.
  - intros (Hne & Hml & Hall & HL & Hpos & -> & -> & ->).
    rewrite total_captions_intro by done. rewrite bind_Ok.
    destruct (encode_blocks_intro _ _ _ _ Hml Hall HL) as (blocks & Hb & <-).
    rewrite Hb, bind_Ok.
    pose proof (encode_blocks_inv _ _ _ _ Hb) as (_ & _ & Hlen).
    unfold concatenate. destruct blocks as [|b blocks']; [by destruct imgs|].
    rewrite bind_Ok.
    assert (forallb (fun x => bool_decide (0 < x))
              (caption_length (max_length p) <$> all_final_captions imgs) = true) as ->.
    { apply forallb_pos. by apply Forall_fmap. }
    done.
Qed.

(** ** The span pointers *)

Lemma uint32_small (z : Z) : 0 ≤ z < 2 ^ 32 → uint32 z = z.
Proof. intros Hz. unfold uint32. by apply Z.mod_small. Qed.

Lemma uint32_range (z : Z) : 0 ≤ uint32 z < 2 ^ 32.
Proof. unfold uint32. apply Z.mod_pos_bound. lia. Qed.

Lemma starts_from_length (fl : list (list caption)) (c : Z) :
  length (starts_from c fl) = length fl.
Proof. revert c. induction fl as [|cs fl IH]; intros c; simpl; [done|]. by rewrite IH. Qed.

Lemma ends_from_length (fl : list (list caption)) (c : Z) :
  length (ends_from c fl) = length fl.
Proof. revert c. induction fl as [|cs fl IH]; intros c; simpl; [done|]. by rewrite IH. Qed.

(** The start pointer of record [i] is the counter advanced by the number
    of captions of the records before it, as stored in a [uint32] cell. *)
Lemma starts_from_lookup (fl : list (list caption)) (c : Z) (i : nat) :
  starts_from c fl !! i =
    (fun _ => uint32 (c + Z.of_nat (length (mjoin (take i fl))))) <$> fl !! i.
Proof.
  revert c i. induction fl as [|cs fl IH]; intros c i; [done|].
  destruct i as [|i]; simpl.
  - do 2 f_equal. lia.
  - rewrite IH. destruct (fl !! i); [|done]. simpl. do 2 f_equal.
    rewrite length_app. lia.
Qed.

Lemma ends_from_lookup (fl : list (list caption)) (c : Z) (i : nat) :
  ends_from c fl !! i =
    (fun cs => uint32 (c + Z.of_nat (length (mjoin (take i fl)))
                       + Z.of_nat (length cs) - 1)) <$> fl !! i.
Proof.
  revert c i. induction fl as [|cs fl IH]; intros c i; [done|].
  destruct i as [|i]; simpl.
  - do 2 f_equal. lia.
  - rewrite IH. destruct (fl !! i); [|done]. simpl. do 2 f_equal.
    rewrite length_app. lia.
Qed.

Lemma mjoin_take_S {A : Type} (fl : list (list A)) (i : nat) (cs : list A) :
  fl !! i = Some cs → mjoin (take (S i) fl) = mjoin (take i fl) ++ cs.
Proof.
  intros Hi. rewrite (take_S_r _ _ _ Hi), join_app. simpl. by rewrite app_nil_r.
Qed.

Lemma mjoin_take_le {A : Type} (fl : list (list A)) (i : nat) (cs : list A) :
  fl !! i = Some cs →
  (length (mjoin (take i fl)) + length cs ≤ length (mjoin fl))%nat.
Proof.
  intros Hi. rewrite <- (take_drop (S i) fl) at 2.
  rewrite join_app, length_app, (mjoin_take_S _ _ _ Hi), length_app. lia.
Qed.

(** The sum of the span sizes when no pointer wraps. *)
Lemma spans_sum (fl : list (list caption)) (c : Z) :
  Forall (fun cs => cs ≠ []) fl → 1 ≤ c →
  c + Z.of_nat (length (mjoin fl)) - 1 < 2 ^ 32 →
  sum_Z (zip_with (fun st en => en - st + 1) (starts_from c fl) (ends_from c fl))
  = Z.of_nat (length (mjoin fl)).
Proof.
  intros Hne. revert c. induction Hne as [|cs fl Hcs _ IH]; intros c Hc Hlt; [done|].
  simpl in *. rewrite length_app in *. unfold sum_Z in *. simpl.
  assert (0 < length cs)%nat by (destruct cs; [done|simpl; lia]).
  rewrite IH by lia. rewrite !uint32_small by lia. lia.
Qed.

Lemma final_lists_nonempty (imgs : list img) :
  Forall has_captions imgs → Forall (fun cs => cs ≠ []) (final_lists imgs).
Proof.
  intros Hall. unfold final_lists. apply Forall_fmap.
  eapply Forall_impl; [exact Hall|]. by intros im [_ ?].
Qed.

Lemma final_lists_lookup (imgs : list img) (i : nat) (im : img) (cs : list caption) :
  imgs !! i = Some im → final_captions im = Some cs →
  final_lists imgs !! i = Some cs.
Proof.
  intros Him Hcs. unfold final_lists. rewrite list_lookup_fmap, Him. simpl.
  unfold finals_of. by rewrite Hcs.
Qed.

Lemma all_final_captions_take (imgs : list img) (i : nat) :
  all_final_captions (take i imgs) = mjoin (take i (final_lists imgs)).
Proof. unfold all_final_captions, final_lists. by rewrite fmap_take. Qed.

(** C2, as amended.  For a corpus in which every record has at least one
    caption and whose total number of captions [M] is below [2^32], the
    arrays [encode_captions] returns satisfy: [label_start_ix[0] = 1];
    [label_start_ix[i+1] = label_end_ix[i] + 1]; for record [i] with
    captions [cs], [label_end_ix[i] - label_start_ix[i] + 1 = len(cs)];
    the span sizes add up to [M]; the label matrix has [M] rows; and the
    loop ends with the running counter at [M + 1]. *)
Theorem encode_captions_spans (imgs : list img) (p : params) (wtoi : gmap string Z)
    (L : list (list Z)) (starts ends lengths : list Z) :
  Forall has_captions imgs →
  Z.of_nat (length (all_final_captions imgs)) < 2 ^ 32 →
  encode_captions imgs p wtoi = Ok (L, starts, ends, lengths) →
  length starts = length imgs ∧ length ends = length imgs ∧
  starts !! 0%nat = Some 1 ∧
  (∀ i st en, starts !! S i = Some st → ends !! i = Some en → st = en + 1) ∧
  (∀ i im cs, imgs !! i = Some im → final_captions im = Some cs →
     ∃ st en, starts !! i = Some st ∧ ends !! i = Some en ∧
              en - st + 1 = Z.of_nat (length cs)) ∧
  sum_Z (zip_with (fun st en => en - st + 1) starts ends)
    = Z.of_nat (length (all_final_captions imgs)) ∧
  length L = length (all_final_captions imgs) ∧
  ∃ st, encode_loop imgs p wtoi = Ok (length (all_final_captions imgs), st) ∧
        counter st - 1 = Z.of_nat (length (all_final_captions imgs)).
Proof.
  intros Hall HM Henc.
  pose proof Henc as Henc'.
  apply encode_captions_Ok in Henc as (Hne & Hml & _ & HL & _ & -> & -> & ->).
  pose proof (final_lists_nonempty imgs Hall) as Hfl.
  assert (∀ i cs, final_lists imgs !! i = Some cs →
            (0 < length cs)%nat ∧
            (length (mjoin (take i (final_lists imgs))) + length cs
             ≤ length (all_final_captions imgs))%nat) as Hbound.
  { intros i cs Hi. split.
    - eapply Forall_lookup_1 in Hfl; [|exact Hi]. destruct cs; [done|simpl; lia].
    - by apply mjoin_take_le. }
  split_and!.
  - unfold final_lists. by rewrite starts_from_length, length_fmap.
  - unfold final_lists. by rewrite ends_from_length, length_fmap.
  - rewrite starts_from_lookup. unfold final_lists.
    destruct imgs as [|im imgs]; [done|]. simpl. by rewrite uint32_small by lia.
  - intros i st en. rewrite starts_from_lookup, ends_from_lookup.
    destruct (final_lists imgs !! S i) as [cs'|] eqn:Hi'; [|done].
    destruct (final_lists imgs !! i) as [cs|] eqn:Hi; [|done]. simpl.
    intros [= <-] [= <-].
    destruct (Hbound _ _ Hi) as [? ?]. destruct (Hbound _ _ Hi') as [? Hb].
    rewrite (mjoin_take_S _ _ _ Hi), length_app in *.
    rewrite !uint32_small by lia. lia.
  - intros i im cs Him Hcs.
    pose proof (final_lists_lookup _ _ _ _ Him Hcs) as Hi.
    eexists _, _. rewrite starts_from_lookup, ends_from_lookup, Hi. simpl.
    split_and!; [done..|]. destruct (Hbound _ _ Hi) as [? ?].
    rewrite !uint32_small by lia. lia.
  - apply spans_sum; [done|lia|]. unfold all_final_captions in HM. lia.
  - by apply mapM_Ok_length in HL.
  - rewrite encode_loop_eq, total_captions_intro by done. rewrite bind_Ok.
    destruct (encode_blocks_intro _ _ _ _ Hml Hall HL) as (blocks & -> & _).
    rewrite bind_Ok. eexists. split; [done|]. simpl. lia.
Qed.

Lemma encode_ex :
  encode_captions ex_final ex_params ex_wtoi
  = Ok (ex_labels, ex_starts, ex_ends, ex_lengths).
Proof. vm_compute. reflexivity. Qed.

Lemma ex_final_has_captions : Forall has_captions ex_final.
Proof. repeat constructor; done. Qed.

Lemma encode_captions_spans_witness :
  length ex_starts = length ex_final ∧ length ex_ends = length ex_final ∧
  ex_starts !! 0%nat = Some 1 ∧
  (∀ i st en, ex_starts !! S i = Some st → ex_ends !! i = Some en → st = en + 1) ∧
  (∀ i im cs, ex_final !! i = Some im → final_captions im = Some cs →
     ∃ st en, ex_starts !! i = Some st ∧ ex_ends !! i = Some en ∧
              en - st + 1 = Z.of_nat (length cs)) ∧
  sum_Z (zip_with (fun st en => en - st + 1) ex_starts ex_ends)
    = Z.of_nat (length (all_final_captions ex_final)) ∧
  length ex_labels = length (all_final_captions ex_final) ∧
  ∃ st, encode_loop ex_final ex_params ex_wtoi
          = Ok (length (all_final_captions ex_final), st) ∧
        counter st - 1 = Z.of_nat (length (all_final_captions ex_final)).
Proof.
  apply (encode_captions_spans ex_final ex_params ex_wtoi
           ex_labels ex_starts ex_ends ex_lengths).
  - repeat constructor; done.
  - vm_compute. reflexivity.
  - vm_compute. reflexivity.
Defined.

(** A record with [n >= 1] one-word captions: what [encode_captions]
    returns, for every [n]. *)
Lemma encode_long_corpus (n : nat) :
  (0 < n)%nat →
  encode_captions (long_corpus n) long_params long_wtoi
  = Ok (replicate n [1], [1], [uint32 (Z.of_nat n)], replicate n 1).
Proof.
  intros Hn. apply encode_captions_Ok.
  assert (all_final_captions (long_corpus n) = replicate n ["a"]) as Hall.
  { unfold all_final_captions, final_lists, long_corpus. csimpl.
    by rewrite app_nil_r. }
  rewrite Hall. split_and!.
  - done.
  - simpl. lia.
  - constructor; [|constructor]. split; [done|]. simpl. destruct n; [lia|done].
  - clear. induction n as [|n IH]; [done|].
    simpl replicate. rewrite mapM_cons, IH. done.
  - apply Forall_replicate. by vm_compute.
  - done.
  - unfold final_lists, long_corpus, finals_of. csimpl. rewrite length_replicate.
    do 2 f_equal. lia.
  - rewrite fmap_replicate. done.
Qed.

Lemma two_pow_32_Z : Z.of_nat two_pow_32 = 4294967296.
Proof. unfold two_pow_32. rewrite Z2Nat.id; [reflexivity|]. by apply Z.pow_nonneg. Qed.

#[global] Opaque two_pow_32.

Lemma two_pow_32_pos : (0 < two_pow_32)%nat.
Proof. pose proof two_pow_32_Z. lia. Qed.

(** C2 as stated fails once the pointers leave the range of a [uint32]
    cell: for one record with [2^32] one-word captions, which has at least
    one caption, [encode_captions] returns [label_start_ix[0] = 1] and
    [label_end_ix[0] = 0], so that the span size [0 - 1 + 1] is not the
    number of captions of the record. *)
Lemma encode_captions_spans_counterexample :
  Forall has_captions (long_corpus two_pow_32) ∧
  ∃ L starts ends lengths cs,
    encode_captions (long_corpus two_pow_32) long_params long_wtoi
      = Ok (L, starts, ends, lengths) ∧
    final_lists (long_corpus two_pow_32) !! 0%nat = Some cs ∧
    starts !! 0%nat = Some 1 ∧ ends !! 0%nat = Some 0 ∧
    0 - 1 + 1 ≠ Z.of_nat (length cs).
Proof.
  pose proof two_pow_32_pos as Hpos. pose proof two_pow_32_Z as HZ.
  split.
  - constructor; [|constructor]. split; [done|].
    change (replicate two_pow_32 ["a"] ≠ []).
    intros E. apply (f_equal length) in E. rewrite length_replicate in E.
    simpl in E. lia.
  - eexists _, _, _, _, _. split; [exact (encode_long_corpus _ Hpos)|].
    split; [reflexivity|]. split; [reflexivity|]. split.
    + change (Some (uint32 (Z.of_nat two_pow_32)) = Some 0).
      rewrite HZ. reflexivity.
    + change (0 - 1 + 1 ≠ Z.of_nat (length (replicate two_pow_32 ["a"]))).
      rewrite length_replicate. lia.
Qed.

(** ** The rows of the label matrix *)

Lemma mjoin_lookup {A : Type} (fl : list (list A)) (i j : nat) (cs : list A) (x : A) :
  fl !! i = Some cs → cs !! j = Some x →
  mjoin fl !! (length (mjoin (take i fl)) + j)%nat = Some x.
Proof.
  intros Hi Hj.
  assert (mjoin fl = mjoin (take i fl) ++ cs ++ mjoin (drop (S i) fl)) as ->.
  { rewrite <- (take_drop_middle _ _ _ Hi) at 1. by rewrite join_app. }
  rewrite lookup_app_r by lia.
  replace (length (mjoin (take i fl)) + j - length (mjoin (take i fl)))%nat
    with j by lia.
  simpl. by apply lookup_app_l_Some.
Qed.

(** Caption [j] of record [i] is the caption of index [row_index imgs i j]
    of the corpus. *)
Lemma row_index_lookup (imgs : list img) (i j : nat) (im : img)
    (cs : list caption) (s : caption) :
  imgs !! i = Some im → final_captions im = Some cs → cs !! j = Some s →
  all_final_captions imgs !! row_index imgs i j = Some s.
Proof.
  intros Him Hcs Hj. unfold row_index. rewrite all_final_captions_take.
  apply (mjoin_lookup _ _ _ cs); [|done]. by eapply final_lists_lookup.
Qed.

(** The shape of a row: the stored ids of the first words, then zeros. *)
Lemma encode_row_Ok (ml : Z) (wtoi : gmap string Z) (s : caption) (row : list Z) :
  encode_row ml wtoi s = Ok row ↔
  ∃ ids, Forall2 (fun w ix => wtoi !! w = Some ix) (take (Z.to_nat ml) s) ids ∧
         row = (uint32 <$> ids) ++ replicate (Z.to_nat ml - length ids) 0.
Proof.
  rewrite encode_row_unfold. split.
  - destruct (mapM _ _) as [ids|e] eqn:Hids; [|done]. rewrite bind_Ok.
    intros [= <-]. exists ids. split; [|done].
    apply mapM_Ok_Forall2 in Hids. eapply Forall2_impl; [exact Hids|].
    intros w ix. unfold getitem. destruct (wtoi !! w); [|done]. by intros [= ->].
  - intros (ids & Hids & ->).
    assert (mapM (getitem wtoi) (take (Z.to_nat ml) s) = Ok ids) as ->; [|done].
    apply mapM_Ok_Forall2. eapply Forall2_impl; [exact Hids|].
    intros w ix Hw. unfold getitem. by rewrite Hw.
Qed.


Lemma encode_row_cells (ml : Z) (wtoi : gmap string Z) (s : caption) (row : list Z) :
  encode_row ml wtoi s = Ok row →
  length row = Z.to_nat ml ∧
  (∀ k w, s !! k = Some w → Z.of_nat k < ml →
     ∃ ix, wtoi !! w = Some ix ∧ row !! k = Some (uint32 ix)) ∧
  (∀ k, Z.of_nat (length s) ≤ Z.of_nat k < ml → row !! k = Some 0).
Proof.
  intros (ids & Hids & ->)%encode_row_Ok.
  pose proof (Forall2_length _ _ _ Hids) as Hlen. rewrite length_take in Hlen.
  split_and!.
  - rewrite length_app, length_fmap, length_replicate. lia.
  - intros k w Hw Hk.
    assert (take (Z.to_nat ml) s !! k = Some w) as Hw'.
    { rewrite lookup_take_lt by lia. done. }
    destruct (Forall2_lookup_l _ _ _ _ _ Hids Hw') as (ix & Hix & Hwix).
    exists ix. split; [done|].
    rewrite lookup_app_l by (rewrite length_fmap; by eapply lookup_lt_Some).
    by rewrite list_lookup_fmap, Hix.
  - intros k Hk. rewrite lookup_app_r by (rewrite length_fmap; lia).
    apply lookup_replicate_2. rewrite length_fmap. lia.
Qed.















Lemma Forall2_replicate_same {A B : Type} (P : A → B → Prop) (x : A) (y : B) (n : nat) :
  P x y → Forall2 P (replicate n x) (replicate n y).
Proof. intros Hxy. induction n; simpl; by constructor. Qed.

(** A single caption of [n] words ["a"] encoded at width [n]: what
    [encode_captions] returns, for every [n] whose stored length is not
    zero. *)
Lemma encode_wide_corpus (n : nat) :
  0 < uint32 (Z.of_nat n) →
  encode_captions (wide_corpus n) (wide_params n) long_wtoi
  = Ok ([replicate n 1], [1], [1], [uint32 (Z.of_nat n)]).
Proof.
  intros Hn. apply encode_captions_Ok.
  assert (all_final_captions (wide_corpus n) = [replicate n "a"]) as Hall by done.
  rewrite Hall.
  assert (caption_length (Z.of_nat n) (replicate n "a") = uint32 (Z.of_nat n)) as Hlen.
  { unfold caption_length. rewrite length_replicate. f_equal. lia. }
  split_and!.
  - done.
  - simpl. lia.
  - constructor; [|constructor]. split; done.
  - rewrite mapM_cons, mapM_nil.
    assert (encode_row (max_length (wide_params n)) long_wtoi (replicate n "a")
            = Ok (replicate n 1)) as ->; [|done].
    apply encode_row_Ok. exists (replicate n 1). simpl max_length.
    rewrite Nat2Z.id, length_replicate, Nat.sub_diag, fmap_replicate, app_nil_r.
    split; [|done].
    rewrite take_ge by (rewrite length_replicate; lia).
    by apply Forall2_replicate_same.
  - constructor; [|constructor]. simpl max_length. by rewrite Hlen.
  - done.
  - done.
  - simpl max_length. csimpl. by rewrite Hlen.
Qed.

Lemma S_two_pow_32_Z : Z.of_nat (S two_pow_32) = 4294967297.
Proof. rewrite Nat2Z.inj_succ, two_pow_32_Z. reflexivity. Qed.


(** ** encode_captions: failures *)




Lemma caption_length_nil (ml : Z) : 0 ≤ ml → caption_length ml [] = 0.
Proof.
  intros Hml. unfold caption_length. simpl.
  by rewrite Z.min_r by lia.
Qed.



(** ** main *)

Lemma main_Ok (imgs : list img) (p : params) (out : output) :
  main imgs p = Ok out ↔
  ∃ vocab imgs' L starts ends lengths,
    build_vocab imgs p = Ok (vocab, imgs') ∧
    encode_captions (assign_splits imgs' p) p (wtoi_of vocab)
      = Ok (L, starts, ends, lengths) ∧
    out = {| out_labels := L; out_label_start_ix := starts;
             out_label_end_ix := ends; out_label_length := lengths;
             out_ix_to_word := itow_of vocab;
             out_splits := split <$> assign_splits imgs' p |}.
Proof.
  unfold main. split.
  - destruct (build_vocab imgs p) as [[vocab imgs']|e]; [|done]. rewrite bind_Ok.
    destruct (encode_captions _ _ _) as [[[[L starts] ends] lengths]|e] eqn:Henc;
      [|done].
    rewrite bind_Ok. intros [= <-]. by exists vocab, imgs', L, starts, ends, lengths.
  - intros (vocab & imgs' & L & starts & ends & lengths & -> & Henc & ->).
    rewrite bind_Ok, Henc. done.
Qed.

(** [encode_captions] reads nothing of a record but its final captions. *)
Lemma encode_captions_same_finals (imgs1 imgs2 : list img) (p : params)
    (wtoi : gmap string Z) :
  final_captions <$> imgs1 = final_captions <$> imgs2 →
  encode_captions imgs1 p wtoi = encode_captions imgs2 p wtoi.
Proof.
  intros Heq. rewrite !encode_captions_eq. unfold encode_captions_fun. cbv zeta.
  assert (Forall2 (fun a b => final_captions a = final_captions b) imgs1 imgs2) as HF.
  { clear -Heq. revert imgs2 Heq.
    induction imgs1 as [|a l1 IH]; intros [|b l2] Heq; try done.
    injection Heq as Hab Heq. constructor; [done|by apply IH]. }
  clear Heq.
  assert (total_captions imgs1 = total_captions imgs2) as ->.
  { induction HF as [|a b l1 l2 Hab _ IH]; [done|]. simpl.
    unfold get_final_captions. by rewrite Hab, IH. }
  assert (mapM (encode_block (max_length p) wtoi) imgs1
          = mapM (encode_block (max_length p) wtoi) imgs2) as ->.
  { induction HF as [|a b l1 l2 Hab _ IH]; [done|].
    rewrite !mapM_cons, IH, !encode_block_unfold.
    unfold get_final_captions. by rewrite Hab. }
  assert (final_lists imgs1 = final_lists imgs2) as Hfl.
  { unfold final_lists.
    induction HF as [|a b l1 l2 Hab _ IH]; [done|]. csimpl.
    unfold finals_of at 1 3. by rewrite Hab, IH. }
  unfold all_final_captions. by rewrite Hfl.
Qed.

Lemma encode_captions_assign_splits (imgs : list img) (p p' : params)
    (wtoi : gmap string Z) :
  encode_captions (assign_splits imgs p') p wtoi = encode_captions imgs p wtoi.
Proof. apply encode_captions_same_finals, assign_splits_final_captions. Qed.

Lemma encode_captions_max_length (imgs : list img) (p p' : params)
    (wtoi : gmap string Z) :
  max_length p = max_length p' →
  encode_captions imgs p wtoi = encode_captions imgs p' wtoi.
Proof. intros H. unfold encode_captions, encode_loop. by rewrite H. Qed.

Lemma build_vocab_threshold (imgs : list img) (p p' : params) :
  word_count_threshold p = word_count_threshold p' →
  build_vocab imgs p = build_vocab imgs p'.
Proof. intros H. unfold build_vocab. by rewrite H. Qed.

(** The arrays and the vocabulary [main] returns, and whether it returns,
    do not depend on [num_val] and [num_test]. *)
Lemma main_split_sizes (imgs : list img) (p p' : params) :
  word_count_threshold p = word_count_threshold p' →
  max_length p = max_length p' →
  match main imgs p, main imgs p' with
  | Ok out, Ok out' =>
      out_labels out = out_labels out' ∧
      out_label_start_ix out = out_label_start_ix out' ∧
      out_label_end_ix out = out_label_end_ix out' ∧
      out_label_length out = out_label_length out' ∧
      out_ix_to_word out = out_ix_to_word out'
  | Raise e, Raise e' => e = e'
  | _, _ => False
  end.
Proof.
  intros Ht Hml. unfold main. rewrite (build_vocab_threshold imgs p p' Ht).
  destruct (build_vocab imgs p') as [[vocab imgs']|e]; [|done].
  rewrite !bind_Ok, !encode_captions_assign_splits.
  rewrite (encode_captions_max_length imgs' p p' _ Hml).
  destruct (encode_captions imgs' p' (wtoi_of vocab)) as [[[[L starts] ends] lengths]|e];
    done.
Qed.

(** ** Split sizes beyond the corpus *)

Lemma length_filter_none {A : Type} (P : A → Prop) `{∀ x, Decision (P x)} (l : list A) :
  Forall (fun x => ¬ P x) l → length (filter P l) = 0%nat.
Proof.
  induction 1 as [|x l Hx _ IH]; [done|].
  rewrite filter_cons. by destruct (decide (P x)).
Qed.

(** C7 as stated fails: with [num_val + num_test = 6] for a corpus of two
    records, [main] raises nothing and returns its arrays, with one record
    labelled ['val'], one ['test'] and none ['train']. *)
Lemma oversized_splits_counterexample :
  Z.of_nat (length ex_corpus) < num_val oversized_params + num_test oversized_params ∧
  main ex_corpus oversized_params
  = Ok {| out_labels := ex_labels; out_label_start_ix := ex_starts;
          out_label_end_ix := ex_ends; out_label_length := ex_lengths;
          out_ix_to_word := itow_of ex_vocab;
          out_splits := [Some "val"; Some "test"] |}.
Proof. split; [simpl; lia|]. vm_compute. reflexivity. Qed.

(** C7, as amended.  When [num_val + num_test] exceeds the size of the
    corpus no error is raised on that account: [assign_splits] labels
    every record at a position below [num_val] ['val'] and every other
    record ['test'], none ['train']; and [main] returns or raises as it
    does for any other split sizes with the same threshold and
    [max_length], with the same arrays and the same vocabulary. *)
Theorem assign_splits_oversized (imgs : list img) (p : params) :
  Z.of_nat (length imgs) < num_val p + num_test p →
  (∀ i im, imgs !! i = Some im →
     ∃ im', assign_splits imgs p !! i = Some im' ∧
            split im' = Some (if decide (Z.of_nat i < num_val p) then "val" else "test")) ∧
  count_split "train" (assign_splits imgs p) = 0%nat ∧
  (∀ p', word_count_threshold p' = word_count_threshold p →
         max_length p' = max_length p →
         match main imgs p, main imgs p' with
         | Ok out, Ok out' =>
             out_labels out = out_labels out' ∧
             out_label_start_ix out = out_label_start_ix out' ∧
             out_label_end_ix out = out_label_end_ix out' ∧
             out_label_length out = out_label_length out' ∧
             out_ix_to_word out = out_ix_to_word out'
         | Raise e, Raise e' => e = e'
         | _, _ => False
         end).
Proof.
  intros Hlt. split_and!.
  - intros i im Him. eexists. rewrite assign_splits_lookup, Him. simpl.
    split; [done|]. f_equal. unfold split_label.
    pose proof (lookup_lt_Some _ _ _ Him).
    repeat case_bool_decide; case_decide; try done; lia.
  - unfold assign_splits. rewrite count_split_imap.
    apply length_filter_none, Forall_forall. intros i Hi.
    apply elem_of_seq in Hi. unfold split_label.
    repeat case_bool_decide; try done; lia.
  - intros p' Ht Hml. by apply main_split_sizes.
Qed.

Lemma assign_splits_oversized_witness :
  count_split "train" (assign_splits ex_corpus oversized_params) = 0%nat.
Proof.
  destruct (assign_splits_oversized ex_corpus oversized_params) as (_ & Htrain & _).
  - simpl. lia.
  - exact Htrain.
Defined.

(** ** Rows and lengths in the output of main *)

Lemma itow_from_lookup (vocab : list string) (i : nat) (m : gmap Z string)
    (ix : Z) (w : string) :
  itow_from i vocab m !! ix = Some w → m !! ix = Some w ∨ Z.of_nat i + 1 ≤ ix.
Proof.
  revert i m. induction vocab as [|x vocab IH]; intros i m; simpl; [by left|].
  intros Hl. apply IH in Hl as [Hl|Hl]; [|right; lia].
  destruct (decide (Z.of_nat i + 1 = ix)) as [<-|Hne]; [right; lia|].
  rewrite lookup_insert_ne in Hl by done. by left.
Qed.

Lemma itow_of_lookup (vocab : list string) (ix : Z) (w : string) :
  itow_of vocab !! ix = Some w → 1 ≤ ix.
Proof.
  intros Hl. apply itow_from_lookup in Hl as [Hl|Hl]; [|lia].
  by rewrite lookup_empty in Hl.
Qed.

Lemma count_nonzero_app (l1 l2 : list Z) :
  count_nonzero (l1 ++ l2) = (count_nonzero l1 + count_nonzero l2)%nat.
Proof. unfold count_nonzero. by rewrite filter_app, length_app. Qed.

Lemma count_nonzero_zeros (n : nat) : count_nonzero (replicate n 0) = 0%nat.
Proof.
  unfold count_nonzero. apply length_filter_none, Forall_replicate. by intros H.
Qed.

Lemma count_nonzero_all (l : list Z) :
  Forall (fun x => x ≠ 0) l → count_nonzero l = length l.
Proof.
  unfold count_nonzero. induction 1 as [|x l Hx _ IH]; [done|].
  rewrite filter_cons. destruct (decide (x ≠ 0)); [|done]. simpl. by rewrite IH.
Qed.

Lemma all_final_captions_build (imgs : list img) (counts : gmap string Z) (t : Z) :
  all_final_captions (set_final_captions counts t <$> imgs)
  = final_caption counts t <$> all_captions imgs.
Proof.
  unfold all_final_captions, final_lists, all_captions.
  induction imgs as [|im imgs IH]; [done|]. csimpl.
  rewrite fmap_app. f_equal. exact IH.
Qed.

(** C10, as amended.  In a run of [main] that returns, with a vocabulary
    of fewer than [2^32] words: no word has the id 0; the label matrix has
    one row per caption; in the row of a caption of [c] words the first
    [min(max_length, c)] columns hold ids that are at least 1, every later
    column holds zero, and the number of nonzero entries of the row is
    [min(max_length, c)], which is what the cell of [label_length] for the
    row holds when [min(max_length, c)] is below [2^32]. *)
Theorem main_rows_nonzero (imgs : list img) (p : params) (out : output)
    (vocab : list string) (imgs' : list img) :
  build_vocab imgs p = Ok (vocab, imgs') →
  main imgs p = Ok out →
  Z.of_nat (length vocab) < 2 ^ 32 →
  (∀ ix w, out_ix_to_word out !! ix = Some w → 1 ≤ ix) ∧
  length (out_labels out) = length (all_captions imgs) ∧
  ∀ r txt, all_captions imgs !! r = Some txt →
    ∃ row, out_labels out !! r = Some row ∧
      (∀ k, Z.of_nat k < Z.min (max_length p) (Z.of_nat (length txt)) →
         ∃ x, row !! k = Some x ∧ 1 ≤ x) ∧
      (∀ k x, Z.min (max_length p) (Z.of_nat (length txt)) ≤ Z.of_nat k →
         row !! k = Some x → x = 0) ∧
      Z.of_nat (count_nonzero row) = Z.min (max_length p) (Z.of_nat (length txt)) ∧
      (Z.min (max_length p) (Z.of_nat (length txt)) < 2 ^ 32 →
       out_label_length out !! r
       = Some (Z.min (max_length p) (Z.of_nat (length txt)))).
Proof.
  intros Hb Hmain Hsize.
  apply main_Ok in Hmain
    as (vocab0 & imgs0 & L & starts & ends & lengths & Hb0 & Henc & ->).
  rewrite Hb in Hb0. injection Hb0 as <- <-.
  rewrite encode_captions_assign_splits in Henc.
  apply encode_captions_Ok in Henc as (_ & Hml & _ & HL & _ & _ & _ & ->).
  apply build_vocab_inv in Hb as (_ & _ & ->).
  rewrite all_final_captions_build in HL |- *.
  cbn [out_labels out_label_length out_ix_to_word].
  pose proof (mapM_Ok_length _ _ _ HL) as HlenL. rewrite length_fmap in HlenL.
  split_and!; [intros ix w; apply itow_of_lookup|done|].
  intros r txt Hr.
  set (s := final_caption (count_words imgs) (word_count_threshold p) txt).
  assert ((final_caption (count_words imgs) (word_count_threshold p)
             <$> all_captions imgs) !! r = Some s) as Hs.
  { by rewrite list_lookup_fmap, Hr. }
  assert (length s = length txt) as Hlen.
  { unfold s, final_caption. by rewrite length_fmap. }
  apply mapM_Ok_Forall2 in HL.
  destruct (Forall2_lookup_l _ _ _ _ _ HL Hs) as (row & Hrow & Hrs).
  exists row. split; [done|].
  apply encode_row_Ok in Hrs as (ids & Hids & ->).
  pose proof (Forall2_length _ _ _ Hids) as Hlenids.
  rewrite length_take, Hlen in Hlenids.
  assert (Forall (fun ix => 1 ≤ ix < 2 ^ 32) ids) as Hrange.
  { apply Forall_forall. intros ix Hix.
    apply list_elem_of_lookup in Hix as (k & Hk).
    destruct (Forall2_lookup_r _ _ _ _ _ Hids Hk) as (w & _ & Hw).
    apply wtoi_of_lookup in Hw as (_ & Hw). lia. }
  assert (uint32 <$> ids = ids) as ->.
  { clear -Hrange. induction Hrange as [|ix ids Hix _ IH]; [done|]. csimpl.
    by rewrite IH, uint32_small by lia. }
  split_and!.
  - intros k Hk.
    destruct (lookup_lt_is_Some_2 ids k) as [x Hx]; [lia|].
    exists x. rewrite lookup_app_l by lia. split; [done|].
    eapply Forall_lookup_1 in Hrange; [|exact Hx]. simpl in Hrange. lia.
  - intros k x Hk. rewrite lookup_app_r by lia.
    intros Hx. apply lookup_replicate in Hx as [-> _]. done.
  - rewrite count_nonzero_app, count_nonzero_zeros, count_nonzero_all.
    + lia.
    + eapply Forall_impl; [exact Hrange|]. simpl. intros; lia.
  - intros Hm. rewrite list_lookup_fmap, Hs. simpl. f_equal.
    unfold caption_length. rewrite Hlen. apply uint32_small. lia.
Qed.

Lemma main_ex : main ex_corpus ex_params = Ok ex_output.
Proof. vm_compute. reflexivity. Qed.

Lemma main_rows_nonzero_witness :
  (∀ ix w, out_ix_to_word ex_output !! ix = Some w → 1 ≤ ix) ∧
  length (out_labels ex_output) = length (all_captions ex_corpus) ∧
  ∀ r txt, all_captions ex_corpus !! r = Some txt →
    ∃ row, out_labels ex_output !! r = Some row ∧
      (∀ k, Z.of_nat k < Z.min 2 (Z.of_nat (length txt)) →
         ∃ x, row !! k = Some x ∧ 1 ≤ x) ∧
      (∀ k x, Z.min 2 (Z.of_nat (length txt)) ≤ Z.of_nat k →
         row !! k = Some x → x = 0) ∧
      Z.of_nat (count_nonzero row) = Z.min 2 (Z.of_nat (length txt)) ∧
      (Z.min 2 (Z.of_nat (length txt)) < 2 ^ 32 →
       out_label_length ex_output !! r = Some (Z.min 2 (Z.of_nat (length txt)))).
Proof.
  apply (main_rows_nonzero ex_corpus ex_params ex_output ex_vocab ex_final).
  - vm_compute. reflexivity.
  - vm_compute. reflexivity.
  - simpl. lia.
Defined.

Lemma kocc_replicate (w : string) (n : nat) : kocc w (replicate n w) = Z.of_nat n.
Proof.
  induction n as [|n IH]; [done|]. simpl replicate.
  rewrite kocc_cons, IH, decide_True by done. lia.
Qed.

Lemma count_words_wide (n : nat) :
  (0 < n)%nat → count_words (wide_tokens n) = {[ "a" := Z.of_nat n ]}.
Proof.
  intros Hn. rewrite count_words_flat.
  assert (all_tokens (wide_tokens n) = replicate n "a") as ->.
  { unfold all_tokens, all_captions, wide_tokens. csimpl. by rewrite !app_nil_r. }
  apply map_eq. intros w. destruct (decide (w = "a")) as [->|Hne].
  - rewrite lookup_singleton_eq. apply foldl_bump_Some. split.
    + by rewrite kocc_replicate.
    + destruct n; [lia|]. by left.
  - rewrite lookup_singleton_ne by done.
    destruct (foldl bump ∅ (replicate n "a") !! w) as [k|] eqn:E; [|done].
    apply foldl_bump_Some in E as [_ Hin].
    apply elem_of_replicate in Hin as [? _]. done.
Qed.

(** [build_vocab] on a single caption of [n >= 1] words ["a"] with
    threshold 0: the vocabulary is the word ["a"], without sentinel. *)
Lemma build_vocab_wide (n : nat) :
  (0 < n)%nat →
  build_vocab (wide_tokens n) (wide_params n) = Ok (["a"], wide_corpus n).
Proof.
  intros Hn. rewrite build_vocab_unfold. cbv zeta.
  rewrite (count_words_wide n Hn).
  assert (all_tokens (wide_tokens n) ≠ []) as Hne.
  { unfold all_tokens, all_captions, wide_tokens. csimpl. rewrite !app_nil_r.
    destruct n; [lia|done]. }
  rewrite decide_False by done.
  unfold vocab_of, bad_words_of, bad_count_of, iteritems.
  rewrite map_to_list_singleton. simpl word_count_threshold.
  rewrite !filter_cons, !filter_nil. simpl.
  rewrite decide_True by lia. rewrite decide_False by lia. simpl.
  f_equal. f_equal. unfold wide_tokens, wide_corpus, set_final_captions. csimpl.
  do 3 f_equal. unfold final_caption. rewrite fmap_replicate. f_equal.
  unfold final_word. rewrite lookup_singleton_eq. simpl.
  by rewrite bool_decide_eq_true_2 by lia.
Qed.

Lemma main_wide (n : nat) :
  (0 < n)%nat → 0 < uint32 (Z.of_nat n) →
  main (wide_tokens n) (wide_params n)
  = Ok {| out_labels := [replicate n 1]; out_label_start_ix := [1];
          out_label_end_ix := [1]; out_label_length := [uint32 (Z.of_nat n)];
          out_ix_to_word := itow_of ["a"];
          out_splits := [Some "train"] |}.
Proof.
  intros Hn Hu. apply main_Ok.
  exists ["a"], (wide_corpus n), [replicate n 1], [1], [1], [uint32 (Z.of_nat n)].
  split_and!.
  - by apply build_vocab_wide.
  - rewrite encode_captions_assign_splits. by apply encode_wide_corpus.
  - done.
Qed.

Lemma count_nonzero_ones (n : nat) : count_nonzero (replicate n 1) = n.
Proof.
  rewrite count_nonzero_all, length_replicate; [done|].
  apply Forall_replicate. lia.
Qed.

(** C10 as stated fails when [min(max_length, token_count)] does not fit a
    [uint32] cell: for a corpus of one caption of [2^32 + 1] words and
    [max_length = 2^32 + 1], [main] returns with [label_length[0] = 1]
    while row 0 has [2^32 + 1] nonzero entries. *)
Lemma main_rows_nonzero_counterexample :
  ∃ out row,
    main (wide_tokens (S two_pow_32)) (wide_params (S two_pow_32)) = Ok out ∧
    out_labels out !! 0%nat = Some row ∧
    out_label_length out !! 0%nat = Some 1 ∧
    Z.of_nat (count_nonzero row) = 4294967297.
Proof.
  pose proof S_two_pow_32_Z as HZ.
  assert (uint32 (Z.of_nat (S two_pow_32)) = 1) as Hu by (by rewrite HZ).
  eexists _, _. split; [apply main_wide; [lia|by rewrite Hu]|].
  split; [reflexivity|]. split.
  - change (Some (uint32 (Z.of_nat (S two_pow_32))) = Some 1). by rewrite Hu.
  - by rewrite count_nonzero_ones.
Qed.

(** * Further properties *)

(** ** The two translation tables *)

Lemma itow_from_spec (vocab : list string) (i : nat) (m : gmap Z string) (ix : Z) :
  (∀ k, Z.of_nat i < k → m !! k = None) →
  itow_from i vocab m !! ix =
    if decide (Z.of_nat i < ix) then vocab !! Z.to_nat (ix - Z.of_nat i - 1)
    else m !! ix.
Proof.
  revert i m. induction vocab as [|x vocab IH]; intros i m Hm; simpl.
  - case_decide; [|done]. rewrite lookup_nil. by apply Hm.
  - rewrite IH.
    2: { intros k Hk. rewrite lookup_insert_ne by lia. apply Hm. lia. }
    destruct (decide (Z.of_nat (S i) < ix)) as [Hlt|Hge].
    + rewrite decide_True by lia.
      replace (Z.to_nat (ix - Z.of_nat i - 1))
        with (S (Z.to_nat (ix - Z.of_nat (S i) - 1))) by lia.
      done.
    + destruct (decide (Z.of_nat i < ix)) as [Hlt|Hge'].
      * assert (ix = Z.of_nat i + 1) as -> by lia.
        rewrite lookup_insert_eq.
        replace (Z.to_nat (Z.of_nat i + 1 - Z.of_nat i - 1)) with 0%nat by lia.
        done.
      * rewrite lookup_insert_ne by lia. done.
Qed.

Lemma itow_of_lookup_iff (vocab : list string) (ix : Z) (w : string) :
  itow_of vocab !! ix = Some w ↔
  1 ≤ ix ≤ Z.of_nat (length vocab) ∧ vocab !! Z.to_nat (ix - 1) = Some w.
Proof.
  unfold itow_of. rewrite itow_from_spec by (intros; apply lookup_empty).
  change (Z.of_nat 0) with 0.
  destruct (decide (0 < ix)) as [Hpos|Hneg].
  - replace (ix - 0 - 1) with (ix - 1) by lia. split.
    + intros Hw. pose proof (lookup_lt_Some _ _ _ Hw). split; [lia|done].
    + by intros [_ Hw].
  - rewrite lookup_empty. split; [done|]. intros [? _]. lia.
Qed.

(** X1.  [itow] is the vocabulary numbered from 1: [itow[ix]] is the word
    at position [ix - 1] of [vocab], and there is no other key; 0 is not
    a key, and every [ix] from 1 to [len(vocab)] is one. *)
Theorem itow_of_spec (vocab : list string) :
  (∀ ix w, itow_of vocab !! ix = Some w ↔
           1 ≤ ix ≤ Z.of_nat (length vocab) ∧ vocab !! Z.to_nat (ix - 1) = Some w) ∧
  itow_of vocab !! 0 = None ∧
  (∀ ix, 1 ≤ ix ≤ Z.of_nat (length vocab) → is_Some (itow_of vocab !! ix)).
Proof.
  split_and!.
  - apply itow_of_lookup_iff.
  - destruct (itow_of vocab !! 0) as [w|] eqn:E; [|done].
    apply itow_of_lookup_iff in E as [? _]. lia.
  - intros ix Hix.
    destruct (lookup_lt_is_Some_2 vocab (Z.to_nat (ix - 1))) as [w Hw]; [lia|].
    exists w. by apply itow_of_lookup_iff.
Qed.

Lemma itow_of_spec_witness :
  itow_of ex_vocab !! 1 = Some "a" ∧ is_Some (itow_of ex_vocab !! 2).
Proof.
  destruct (itow_of_spec ex_vocab) as (Hkey & _ & Hall). split.
  - apply Hkey. split; [simpl; lia|reflexivity].
  - apply Hall. simpl. lia.
Defined.

Lemma vocab_NoDup (imgs : list img) (t : Z) :
  UNK ∉ all_tokens imgs →
  NoDup (vocab_of (count_words imgs) t ++
           (if decide (some_word_dropped imgs t) then [UNK] else [])).
Proof.
  intros Hunk. apply NoDup_app. split_and!.
  - apply vocab_of_NoDup.
  - intros w Hw Hw'. apply elem_of_vocab_of in Hw as [Hw _].
    destruct (decide (some_word_dropped imgs t)); [|by apply elem_of_nil in Hw'].
    apply list_elem_of_singleton in Hw' as ->. done.
  - destruct (decide (some_word_dropped imgs t)); [apply NoDup_singleton|constructor].
Qed.

(** X2.  When no token of the corpus is the string ['UNK'], the
    vocabulary [build_vocab] returns lists no word twice, and the tables
    [wtoi] and [itow] that [main] builds from it are inverse to each
    other: [wtoi[w] = ix] exactly when [itow[ix] = w]. *)
Theorem wtoi_itow_inverse (imgs : list img) (p : params)
    (vocab : list string) (imgs' : list img) :
  build_vocab imgs p = Ok (vocab, imgs') →
  UNK ∉ all_tokens imgs →
  NoDup vocab ∧
  ∀ w ix, wtoi_of vocab !! w = Some ix ↔ itow_of vocab !! ix = Some w.
Proof.
  intros Hb Hunk. apply build_vocab_inv in Hb as (_ & -> & _). cbv zeta.
  pose proof (vocab_NoDup imgs (word_count_threshold p) Hunk) as Hnd.
  split; [done|]. intros w ix. rewrite itow_of_lookup_iff. split.
  - intros Hw. pose proof (wtoi_of_lookup _ _ _ Hw) as [Hin Hr].
    destruct (wtoi_of_elem _ _ Hin) as (ix' & Hix' & _ & Hpos).
    rewrite Hw in Hix'. injection Hix' as <-. done.
  - intros [Hr Hw].
    destruct (wtoi_of_elem _ w (list_elem_of_lookup_2 _ _ _ Hw))
      as (ix' & Hix' & Hr' & Hpos).
    pose proof (NoDup_lookup _ _ _ _ Hnd Hw Hpos) as Heq.
    assert (ix = ix') as -> by lia. done.
Qed.

Lemma wtoi_itow_inverse_witness :
  NoDup ex_vocab ∧
  ∀ w ix, wtoi_of ex_vocab !! w = Some ix ↔ itow_of ex_vocab !! ix = Some w.
Proof.
  apply (wtoi_itow_inverse ex_corpus ex_params ex_vocab ex_final).
  - vm_compute. reflexivity.
  - vm_compute. intros H. repeat (apply elem_of_cons in H as [H|H]; [discriminate H|]).
    by apply elem_of_nil in H.
Defined.

(** ** Decoding the label matrix *)



(** What [main] returns, in terms of the tokenised corpus. *)
Lemma main_inv (imgs : list img) (p : params) (out : output)
    (vocab : list string) (imgs' : list img) :
  build_vocab imgs p = Ok (vocab, imgs') → main imgs p = Ok out →
  0 ≤ max_length p ∧
  vocab = vocab_of (count_words imgs) (word_count_threshold p) ++
            (if decide (some_word_dropped imgs (word_count_threshold p))
             then [UNK] else []) ∧
  out_ix_to_word out = itow_of vocab ∧
  Forall2 (fun txt row =>
             encode_row (max_length p) (wtoi_of vocab)
               (final_caption (count_words imgs) (word_count_threshold p) txt)
             = Ok row)
          (all_captions imgs) (out_labels out) ∧
  out_label_length out
  = (fun txt => uint32 (Z.min (max_length p) (Z.of_nat (length txt))))
      <$> all_captions imgs.
Proof.
  intros Hb Hmain.
  apply main_Ok in Hmain
    as (vocab0 & imgs0 & L & starts & ends & lengths & Hb0 & Henc & ->).
  rewrite Hb in Hb0. injection Hb0 as <- <-.
  rewrite encode_captions_assign_splits in Henc.
  apply encode_captions_Ok in Henc as (_ & Hml & _ & HL & _ & _ & _ & ->).
  apply build_vocab_inv in Hb as (_ & Hv & ->).
  rewrite all_final_captions_build in HL |- *.
  cbn [out_labels out_label_length out_ix_to_word].
  split_and!; [done..| |].
  - apply mapM_Ok_Forall2 in HL. by apply Forall2_fmap_l in HL.
  - rewrite <- list_fmap_compose. apply list_fmap_ext. intros _ txt _. simpl.
    unfold caption_length, final_caption. by rewrite length_fmap.
Qed.

(** X3.  Decoding undoes encoding: in a run of [main] that returns, with
    a vocabulary of fewer than [2^32] words, the cell of row [r] and
    column [k < max_length] is an index that [ix_to_word] maps back to the
    final form of the [k]-th word of the [r]-th caption, the word itself
    if its count exceeds the threshold and ['UNK'] otherwise. *)
Theorem decode_labels (imgs : list img) (p : params) (out : output)
    (vocab : list string) (imgs' : list img) :
  build_vocab imgs p = Ok (vocab, imgs') →
  main imgs p = Ok out →
  Z.of_nat (length vocab) < 2 ^ 32 →
  ∀ r txt k w,
    all_captions imgs !! r = Some txt → txt !! k = Some w →
    Z.of_nat k < max_length p →
    ∃ row ix,
      out_labels out !! r = Some row ∧ row !! k = Some ix ∧
      out_ix_to_word out !! ix
      = Some (if decide (word_count_threshold p < word_count imgs w) then w else UNK).
Proof.
  intros Hb Hmain Hsize r txt k w Hr Hk Hkml.
  destruct (main_inv _ _ _ _ _ Hb Hmain) as (_ & Hv & -> & HL & _).
  destruct (Forall2_lookup_l _ _ _ _ _ HL Hr) as (row & Hrow & Hrs).
  destruct (encode_row_cells _ _ _ _ Hrs) as (_ & Hids & _).
  destruct (Hids k (final_word (count_words imgs) (word_count_threshold p) w))
    as (ix & Hix & Hcell); [|done|].
  { unfold final_caption. by rewrite list_lookup_fmap, Hk. }
  pose proof (wtoi_of_lookup _ _ _ Hix) as [Hin Hrange].
  destruct (wtoi_of_elem _ _ Hin) as (ix' & Hix' & _ & Hpos).
  rewrite Hix in Hix'. injection Hix' as <-.
  exists row, ix. rewrite uint32_small in Hcell by lia.
  split_and!; [done..|].
  rewrite <- final_word_spec. apply itow_of_lookup_iff. done.
Qed.

Lemma decode_labels_witness :
  ∃ row ix,
    out_labels ex_output !! 1%nat = Some row ∧ row !! 0%nat = Some ix ∧
    out_ix_to_word ex_output !! ix
    = Some (if decide (1 < word_count ex_corpus "two") then "two" else UNK).
Proof.
  apply (decode_labels ex_corpus ex_params ex_output ex_vocab ex_final
           ltac:(vm_compute; reflexivity) ltac:(vm_compute; reflexivity)
           ltac:(simpl; lia) 1%nat ["two"; "dogs"; "run"] 0%nat "two").
  - reflexivity.
  - reflexivity.
  - simpl. lia.
Defined.

(** X4.  In a run of [main] that returns, with a vocabulary of fewer than
    [2^32] words, every cell of the label matrix is either the padding 0
    or a key of [ix_to_word]: an index between 1 and the size of the
    vocabulary. *)
Theorem labels_are_indices (imgs : list img) (p : params) (out : output)
    (vocab : list string) (imgs' : list img) :
  build_vocab imgs p = Ok (vocab, imgs') →
  main imgs p = Ok out →
  Z.of_nat (length vocab) < 2 ^ 32 →
  ∀ r row k x,
    out_labels out !! r = Some row → row !! k = Some x →
    x = 0 ∨ (1 ≤ x ≤ Z.of_nat (length vocab) ∧ is_Some (out_ix_to_word out !! x)).
Proof.
  intros Hb Hmain Hsize r row k x Hrow Hx.
  destruct (main_inv _ _ _ _ _ Hb Hmain) as (_ & _ & -> & HL & _).
  destruct (Forall2_lookup_r _ _ _ _ _ HL Hrow) as (txt & _ & Hrs).
  apply encode_row_Ok in Hrs as (ids & Hids & ->).
  apply lookup_app_Some in Hx as [Hx|[_ Hx]].
  - right. rewrite list_lookup_fmap in Hx.
    destruct (ids !! k) as [ix|] eqn:Hix; [|done]. injection Hx as <-.
    destruct (Forall2_lookup_r _ _ _ _ _ Hids Hix) as (w & _ & Hw).
    pose proof (wtoi_of_lookup _ _ _ Hw) as [Hin Hrange].
    rewrite uint32_small by lia. split; [done|].
    destruct (lookup_lt_is_Some_2 vocab (Z.to_nat (ix - 1))) as [w' Hw']; [lia|].
    exists w'. by apply itow_of_lookup_iff.
  - left. by apply lookup_replicate in Hx as [-> _].
Qed.

Lemma labels_are_indices_witness :
  2 = 0 ∨ (1 ≤ 2 ≤ Z.of_nat (length ex_vocab)
           ∧ is_Some (out_ix_to_word ex_output !! 2)).
Proof.
  apply (labels_are_indices ex_corpus ex_params ex_output ex_vocab ex_final
           ltac:(vm_compute; reflexivity) ltac:(vm_compute; reflexivity)
           ltac:(simpl; lia) 0%nat [1; 2] 1%nat 2).
  - reflexivity.
  - reflexivity.
Defined.

(** ** build_vocab: when it raises, and the threshold *)

(** X5.  [build_vocab] raises [ZeroDivisionError] exactly on a corpus
    without a single word (no record, no caption, or only captions without
    words): the percentage of bad words it prints divides by the number of
    distinct words.  On every other corpus it returns, for any threshold. *)
Theorem build_vocab_raises (imgs : list img) (p : params) :
  (all_tokens imgs = [] → build_vocab imgs p = Raise ZeroDivisionError) ∧
  (all_tokens imgs ≠ [] →
     ∃ vocab imgs', build_vocab imgs p = Ok (vocab, imgs') ∧
                    length imgs' = length imgs).
Proof.
  rewrite build_vocab_unfold. cbv zeta. split; intros H.
  - by rewrite decide_True.
  - rewrite decide_False by done. eexists _, _. split; [done|].
    by rewrite length_fmap.
Qed.

Lemma build_vocab_raises_witness :
  build_vocab no_words_corpus ex_params = Raise ZeroDivisionError ∧
  ∃ vocab imgs', build_vocab ex_corpus ex_params = Ok (vocab, imgs') ∧
                 length imgs' = length ex_corpus.
Proof.
  split.
  - apply (build_vocab_raises no_words_corpus ex_params). reflexivity.
  - apply (build_vocab_raises ex_corpus ex_params). discriminate.
Defined.

(** X6.  With a threshold of 0 or less no word is dropped: the vocabulary
    is the set of the words of the corpus, each listed once, without the
    sentinel (unless ['UNK'] is itself a word of the corpus), and every
    final caption is its tokenised caption. *)
Theorem build_vocab_threshold_zero (imgs : list img) (p : params)
    (vocab : list string) (imgs' : list img) :
  build_vocab imgs p = Ok (vocab, imgs') →
  word_count_threshold p ≤ 0 →
  NoDup vocab ∧
  (∀ w, w ∈ vocab ↔ w ∈ all_tokens imgs) ∧
  Forall2 (fun im im' => final_captions im' = Some (processed_tokens im)) imgs imgs'.
Proof.
  intros Hb Ht. apply build_vocab_inv in Hb as (_ & -> & ->). cbv zeta.
  assert (∀ w, w ∈ all_tokens imgs → word_count_threshold p < word_count imgs w) as Hkeep.
  { intros w Hw. apply word_count_pos in Hw. lia. }
  rewrite decide_False, app_nil_r.
  2: { rewrite some_word_dropped_iff. intros (w & Hw & Hle).
       specialize (Hkeep w Hw). lia. }
  split_and!.
  - apply vocab_of_NoDup.
  - intros w. rewrite elem_of_vocab_of. split; [tauto|]. intros Hw. split; auto.
  - apply Forall2_fmap_r, Forall_Forall2_diag, Forall_forall. intros im Him. simpl.
    f_equal. rewrite <- (list_fmap_id (processed_tokens im)) at 2.
    apply list_fmap_ext. intros j txt Htxt. simpl.
    unfold final_caption. rewrite <- (list_fmap_id txt) at 2.
    apply list_fmap_ext. intros k w Hw. simpl.
    rewrite final_word_spec, decide_True; [done|]. apply Hkeep.
    unfold all_tokens, all_captions. apply list_elem_of_join. exists txt.
    split; [by eapply list_elem_of_lookup_2|].
    apply list_elem_of_join. exists (processed_tokens im).
    split; [by eapply list_elem_of_lookup_2|]. by apply list_elem_of_fmap_2.
Qed.

Lemma build_vocab_threshold_zero_witness :
  NoDup ex_vocab0 ∧
  (∀ w, w ∈ ex_vocab0 ↔ w ∈ all_tokens ex_corpus) ∧
  Forall2 (fun im im' => final_captions im' = Some (processed_tokens im))
          ex_corpus ex_final0.
Proof.
  apply (build_vocab_threshold_zero ex_corpus ex_params0 ex_vocab0 ex_final0).
  - vm_compute. reflexivity.
  - simpl. lia.
Defined.

(** X7.  With a threshold that no word exceeds, the vocabulary is the
    sentinel alone and every word of every final caption is ['UNK']. *)
Theorem build_vocab_threshold_high (imgs : list img) (p : params)
    (vocab : list string) (imgs' : list img) :
  build_vocab imgs p = Ok (vocab, imgs') →
  (∀ w, word_count imgs w ≤ word_count_threshold p) →
  vocab = [UNK] ∧
  ∀ im' cs cap w, im' ∈ imgs' → final_captions im' = Some cs → cap ∈ cs → w ∈ cap →
                  w = UNK.
Proof.
  intros Hb Ht. apply build_vocab_inv in Hb as (Hne & -> & ->). cbv zeta. split.
  - assert (vocab_of (count_words imgs) (word_count_threshold p) = []) as ->.
    { destruct (vocab_of _ _) as [|w l] eqn:E; [done|].
      assert (w ∈ vocab_of (count_words imgs) (word_count_threshold p)) as Hw
        by (rewrite E; by left).
      apply elem_of_vocab_of in Hw as [_ Hw]. specialize (Ht w). lia. }
    rewrite decide_True; [done|]. apply some_word_dropped_iff.
    destruct (all_tokens imgs) as [|w l] eqn:E; [done|].
    exists w. split; [by left|]. apply Ht.
  - intros im' cs cap w Him Hcs Hcap Hw.
    apply list_elem_of_fmap in Him as (im & -> & _). simpl in Hcs.
    injection Hcs as <-.
    apply list_elem_of_fmap in Hcap as (txt & -> & _).
    apply list_elem_of_fmap in Hw as (w0 & -> & _).
    rewrite final_word_spec, decide_False; [done|]. specialize (Ht w0). lia.
Qed.

Lemma build_vocab_threshold_high_witness :
  [UNK] = [UNK] ∧
  ∀ im' cs cap w,
    im' ∈ [ Img [["a"; "dog"]; ["two"; "dogs"; "run"]]
                (Some [[UNK; UNK]; [UNK; UNK; UNK]]) None;
            Img [["a"; "cat"]] (Some [[UNK; UNK]]) None ] →
    final_captions im' = Some cs → cap ∈ cs → w ∈ cap → w = UNK.
Proof.
  apply (build_vocab_threshold_high ex_corpus (Params 2 2 1 0)).
  - vm_compute. reflexivity.
  - intros w. change (word_count ex_corpus w ≤ 2).
    destruct (decide (w ∈ all_tokens ex_corpus)) as [Hin|Hnot].
    + vm_compute in Hin.
      repeat (apply elem_of_cons in Hin as [->|Hin]; [by vm_compute|]).
      by apply elem_of_nil in Hin.
    + destruct (word_count_pos ex_corpus w) as [Hpos _].
      pose proof (word_count_nonneg ex_corpus w).
      destruct (decide (0 < word_count ex_corpus w)); [by exfalso; auto|lia].
Defined.

(** X8.  Raising the threshold never adds a word: a word other than the
    sentinel that is in the vocabulary for the higher threshold is in the
    vocabulary for the lower one, and a word that the lower threshold
    replaces by the sentinel is replaced under the higher one too. *)
Theorem build_vocab_threshold_mono (imgs : list img) (p1 p2 : params)
    (vocab1 vocab2 : list string) (imgs1 imgs2 : list img) :
  build_vocab imgs p1 = Ok (vocab1, imgs1) →
  build_vocab imgs p2 = Ok (vocab2, imgs2) →
  word_count_threshold p1 ≤ word_count_threshold p2 →
  (∀ w, w ≠ UNK → w ∈ vocab2 → w ∈ vocab1) ∧
  (UNK ∈ vocab1 → UNK ∈ vocab2) ∧
  (∀ w, final_word (count_words imgs) (word_count_threshold p1) w = UNK →
        final_word (count_words imgs) (word_count_threshold p2) w = UNK).
Proof.
  intros Hb1 Hb2 Ht.
  apply build_vocab_inv in Hb1 as (_ & -> & _).
  apply build_vocab_inv in Hb2 as (_ & -> & _). cbv zeta. split_and!.
  - intros w Hne Hw. apply elem_of_app in Hw as [Hw|Hw].
    + apply elem_of_app. left. apply elem_of_vocab_of in Hw as [Hin Hlt].
      apply elem_of_vocab_of. split; [done|lia].
    + destruct (decide (some_word_dropped _ _)); [|by apply elem_of_nil in Hw].
      by apply list_elem_of_singleton in Hw.
  - intros Hw. apply elem_of_app in Hw as [Hw|Hw].
    + apply elem_of_vocab_of in Hw as [Hin Hlt].
      destruct (decide (word_count_threshold p2 < word_count imgs UNK)).
      * apply elem_of_app. left. by apply elem_of_vocab_of.
      * apply elem_of_app. right. rewrite decide_True; [by left|].
        apply some_word_dropped_iff. exists UNK. split; [done|lia].
    + destruct (decide (some_word_dropped imgs (word_count_threshold p1)))
        as [Hd|]; [|by apply elem_of_nil in Hw].
      apply elem_of_app. right. rewrite decide_True; [by left|].
      apply some_word_dropped_iff. apply some_word_dropped_iff in Hd as (w & ? & ?).
      exists w. split; [done|lia].
  - intros w. rewrite !final_word_spec.
    destruct (decide (word_count_threshold p1 < word_count imgs w)) as [H1|H1].
    + intros ->. by destruct (decide _).
    + intros _. rewrite decide_False; [done|lia].
Qed.

Lemma build_vocab_threshold_mono_witness :
  (∀ w, w ≠ UNK → w ∈ ex_vocab → w ∈ ex_vocab0) ∧
  (UNK ∈ ex_vocab0 → UNK ∈ ex_vocab) ∧
  (∀ w, final_word (count_words ex_corpus) 0 w = UNK →
        final_word (count_words ex_corpus) 1 w = UNK).
Proof.
  apply (build_vocab_threshold_mono ex_corpus ex_params0 ex_params
           ex_vocab0 ex_vocab ex_final0 ex_final).
  - vm_compute. reflexivity.
  - vm_compute. reflexivity.
  - simpl. lia.
Defined.

(** ** main: when it returns *)







(** ** encode_captions: degenerate inputs *)

Lemma total_captions_missing (imgs : list img) :
  (∃ im, im ∈ imgs ∧ final_captions im = None) →
  total_captions imgs = Raise (KeyError "final_captions").
Proof.
  intros (im & Him & Hnone). induction imgs as [|im0 imgs IH].
  - by apply elem_of_nil in Him.
  - simpl. unfold get_final_captions at 1.
    destruct (final_captions im0) as [cs|] eqn:E; [|done]. rewrite bind_Ok.
    apply elem_of_cons in Him as [->|Him]; [congruence|].
    by rewrite IH.
Qed.

(** X10.  [encode_captions] called on records that [build_vocab] has not
    processed raises [KeyError: 'final_captions']: if any record of the
    corpus lacks the key, that is the exception, whatever else is wrong
    with the input, because the total number of captions is computed
    before anything else. *)
Theorem encode_captions_missing_key (imgs : list img) (p : params)
    (wtoi : gmap string Z) :
  (∃ im, im ∈ imgs ∧ final_captions im = None) →
  encode_captions imgs p wtoi = Raise (KeyError "final_captions").
Proof.
  intros Hmiss. rewrite encode_captions_eq. unfold encode_captions_fun. cbv zeta.
  by rewrite (total_captions_missing imgs Hmiss).
Qed.

Lemma encode_captions_missing_key_witness :
  encode_captions ex_corpus ex_params ex_wtoi = Raise (KeyError "final_captions").
Proof.
  apply (encode_captions_missing_key ex_corpus ex_params ex_wtoi).
  exists (Img [["a"; "cat"]] None None). split; [|reflexivity].
  apply elem_of_cons. right. apply elem_of_cons. by left.
Defined.

Lemma encode_rows_width_zero (wtoi : gmap string Z) (caps : list caption) :
  mapM (encode_row 0 wtoi) caps = Ok (replicate (length caps) []).
Proof.
  induction caps as [|s caps IH]; [done|].
  rewrite mapM_cons, IH. done.
Qed.

(** X11.  Degenerate inputs of [encode_captions].  An empty corpus raises
    the [ValueError] of [np.concatenate].  For a corpus with a record, in
    which every record has final captions and at least one: a negative
    [max_length] raises the [ValueError] of [np.zeros], and
    [max_length = 0] raises the assertion error on the caption lengths,
    without any word being looked up. *)
Theorem encode_captions_degenerate (imgs : list img) (p : params)
    (wtoi : gmap string Z) :
  (imgs = [] →
   encode_captions imgs p wtoi
   = Raise (ValueError "need at least one array to concatenate")) ∧
  (imgs ≠ [] → Forall has_captions imgs → max_length p < 0 →
   encode_captions imgs p wtoi
   = Raise (ValueError "negative dimensions are not allowed")) ∧
  (imgs ≠ [] → Forall has_captions imgs → max_length p = 0 →
   encode_captions imgs p wtoi
   = Raise (AssertionError "error: some caption had no words?")).
Proof.
  rewrite encode_captions_eq. unfold encode_captions_fun. cbv zeta. split_and!.
  - by intros ->.
  - intros Hne Hall Hml. rewrite total_captions_intro by done. rewrite bind_Ok.
    destruct imgs as [|im imgs]; [done|].
    apply Forall_cons in Hall as [[Hcs Hne'] _].
    rewrite mapM_cons, encode_block_unfold. unfold get_final_captions, zeros2.
    rewrite Hcs, bind_Ok.
    rewrite (bool_decide_eq_true_2 (max_length p < 0)) by lia.
    rewrite (bool_decide_eq_true_2 (0 < length (finals_of im))%nat)
      by (destruct (finals_of im); [done|simpl; lia]).
    done.
  - intros Hne Hall Hml. rewrite total_captions_intro by done. rewrite bind_Ok, Hml.
    destruct (encode_blocks_intro 0 wtoi imgs _ ltac:(lia) Hall
                (encode_rows_width_zero wtoi _)) as (blocks & Hb & HL).
    rewrite Hb, bind_Ok.
    pose proof (encode_blocks_inv _ _ _ _ Hb) as (_ & _ & Hlen).
    unfold concatenate. destruct blocks as [|b blocks']; [by destruct imgs|].
    rewrite bind_Ok.
    assert (all_final_captions imgs ≠ []) as Hcaps.
    { destruct imgs as [|im imgs]; [done|].
      apply Forall_cons in Hall as [[_ Hne'] _].
      unfold all_final_captions, final_lists. csimpl.
      by destruct (finals_of im). }
    destruct (all_final_captions imgs) as [|s caps]; [done|]. csimpl.
    assert (caption_length 0 s = 0) as ->.
    { unfold caption_length. by rewrite Z.min_l by lia. }
    done.
Qed.

Lemma encode_captions_degenerate_witness :
  encode_captions [] ex_params ex_wtoi
  = Raise (ValueError "need at least one array to concatenate") ∧
  encode_captions ex_final (Params 1 (-1) 0 0) ex_wtoi
  = Raise (ValueError "negative dimensions are not allowed") ∧
  encode_captions ex_final (Params 1 0 0 0) ex_wtoi
  = Raise (AssertionError "error: some caption had no words?").
Proof.
  split_and!.
  - by apply (encode_captions_degenerate [] ex_params ex_wtoi).
  - apply (encode_captions_degenerate ex_final (Params 1 (-1) 0 0) ex_wtoi).
    + discriminate.
    + repeat constructor; done.
    + simpl. lia.
  - apply (encode_captions_degenerate ex_final (Params 1 0 0 0) ex_wtoi).
    + discriminate.
    + repeat constructor; done.
    + reflexivity.
Defined.

(** ** encode_captions: a word that is not in the table *)







(** ** The span of a record, and the shape of the arrays *)

(** X13.  The pointers of a record select its rows.  When
    [encode_captions] returns for a corpus of fewer than [2^32] captions,
    record [i] with captions [cs] has [1 <= label_start_ix[i]],
    [label_end_ix[i] = label_start_ix[i] + len(cs) - 1 <= M], and, counting
    rows from 1, row [label_start_ix[i] + j] of the label matrix is the
    encoding of caption [j] of the record, with its length in the same
    position of [label_length]. *)
Theorem span_selects_rows (imgs : list img) (p : params) (wtoi : gmap string Z)
    (L : list (list Z)) (starts ends lengths : list Z)
    (i : nat) (im : img) (cs : list caption) :
  encode_captions imgs p wtoi = Ok (L, starts, ends, lengths) →
  Z.of_nat (length (all_final_captions imgs)) < 2 ^ 32 →
  imgs !! i = Some im → final_captions im = Some cs →
  ∃ st en,
    starts !! i = Some st ∧ ends !! i = Some en ∧
    1 ≤ st ∧ en = st + Z.of_nat (length cs) - 1 ∧
    en ≤ Z.of_nat (length (all_final_captions imgs)) ∧
    ∀ j s, cs !! j = Some s →
      ∃ row, L !! (Z.to_nat (st - 1) + j)%nat = Some row ∧
             encode_row (max_length p) wtoi s = Ok row ∧
             lengths !! (Z.to_nat (st - 1) + j)%nat
             = Some (caption_length (max_length p) s).
Proof.
  intros Henc HM Him Hcs.
  apply encode_captions_Ok in Henc as (_ & _ & Hall & HL & _ & -> & -> & ->).
  pose proof (final_lists_lookup _ _ _ _ Him Hcs) as Hi.
  pose proof (mjoin_take_le _ _ _ Hi) as Hle. fold (all_final_captions imgs) in Hle.
  assert (0 < length cs)%nat as Hpos.
  { pose proof (final_lists_nonempty imgs Hall) as Hfl.
    eapply Forall_lookup_1 in Hfl; [|exact Hi]. destruct cs; [done|simpl; lia]. }
  eexists _, _. rewrite starts_from_lookup, ends_from_lookup, Hi. simpl.
  rewrite !uint32_small by lia.
  split_and!; [done|done|lia|lia|lia|].
  intros j s Hj.
  replace (Z.to_nat (1 + Z.of_nat (length (mjoin (take i (final_lists imgs)))) - 1)
           + j)%nat with (row_index imgs i j)
    by (unfold row_index; rewrite all_final_captions_take; lia).
  pose proof (row_index_lookup _ _ _ _ _ _ Him Hcs Hj) as Hr.
  apply mapM_Ok_Forall2 in HL.
  destruct (Forall2_lookup_l _ _ _ _ _ HL Hr) as (row & Hrow & Hrs).
  exists row. split_and!; [done..|]. by rewrite list_lookup_fmap, Hr.
Qed.

Lemma span_selects_rows_witness :
  ∃ st en,
    ex_starts !! 1%nat = Some st ∧ ex_ends !! 1%nat = Some en ∧
    1 ≤ st ∧ en = st + Z.of_nat (length [["a"; UNK]]) - 1 ∧
    en ≤ Z.of_nat (length (all_final_captions ex_final)) ∧
    ∀ j s, [["a"; UNK]] !! j = Some s →
      ∃ row, ex_labels !! (Z.to_nat (st - 1) + j)%nat = Some row ∧
             encode_row (max_length ex_params) ex_wtoi s = Ok row ∧
             ex_lengths !! (Z.to_nat (st - 1) + j)%nat
             = Some (caption_length (max_length ex_params) s).
Proof.
  apply (span_selects_rows ex_final ex_params ex_wtoi
           ex_labels ex_starts ex_ends ex_lengths 1
           (Img [["a"; "cat"]] (Some [["a"; UNK]]) None)).
  - vm_compute. reflexivity.
  - vm_compute. reflexivity.
  - reflexivity.
  - reflexivity.
Defined.

(** X14.  The shape of the arrays [encode_captions] returns, for a corpus
    of [N] records and [M] captions: the label matrix has [M] rows of
    [max_length] columns each, [label_length] has [M] cells,
    [label_start_ix] and [label_end_ix] have [N] cells; every cell is
    below [2^32]; and for [max_length < 2^32] every cell of [label_length]
    lies between 1 and [max_length]. *)
Theorem encode_captions_shape (imgs : list img) (p : params) (wtoi : gmap string Z)
    (L : list (list Z)) (starts ends lengths : list Z) :
  encode_captions imgs p wtoi = Ok (L, starts, ends, lengths) →
  length L = length (all_final_captions imgs) ∧
  Forall (fun row => length row = Z.to_nat (max_length p)
                     ∧ Forall (fun x => 0 ≤ x < 2 ^ 32) row) L ∧
  length lengths = length (all_final_captions imgs) ∧
  length starts = length imgs ∧ length ends = length imgs ∧
  Forall (fun x => 0 ≤ x < 2 ^ 32) starts ∧
  Forall (fun x => 0 ≤ x < 2 ^ 32) ends ∧
  (max_length p < 2 ^ 32 → Forall (fun x => 1 ≤ x ≤ max_length p) lengths).
Proof.
  intros Henc.
  apply encode_captions_Ok in Henc as (_ & Hml & _ & HL & Hpos & -> & -> & ->).
  pose proof (mapM_Ok_length _ _ _ HL) as HlenL.
  apply mapM_Ok_Forall2 in HL.
  split_and!.
  - done.
  - apply Forall_lookup. intros r row Hrow.
    destruct (Forall2_lookup_r _ _ _ _ _ HL Hrow) as (s & _ & Hrs).
    split; [by apply encode_row_cells in Hrs as (? & _)|].
    apply encode_row_Ok in Hrs as (ids & _ & ->). apply Forall_app. split.
    + apply Forall_fmap, Forall_forall. intros ix _. apply uint32_range.
    + apply Forall_replicate. lia.
  - by rewrite length_fmap.
  - unfold final_lists. by rewrite starts_from_length, length_fmap.
  - unfold final_lists. by rewrite ends_from_length, length_fmap.
  - generalize 1. induction (final_lists imgs) as [|cs fl IH]; intros c; simpl;
      constructor; [apply uint32_range|apply IH].
  - generalize 1. induction (final_lists imgs) as [|cs fl IH]; intros c; simpl;
      constructor; [apply uint32_range|apply IH].
  - intros Hlt. apply Forall_fmap. eapply Forall_impl; [exact Hpos|].
    intros s Hs. simpl. unfold caption_length in *.
    rewrite uint32_small in Hs |- * by lia. lia.
Qed.

Lemma encode_captions_shape_witness :
  length ex_labels = length (all_final_captions ex_final) ∧
  Forall (fun row => length row = Z.to_nat (max_length ex_params)
                     ∧ Forall (fun x => 0 ≤ x < 2 ^ 32) row) ex_labels ∧
  length ex_lengths = length (all_final_captions ex_final) ∧
  length ex_starts = length ex_final ∧ length ex_ends = length ex_final ∧
  Forall (fun x => 0 ≤ x < 2 ^ 32) ex_starts ∧
  Forall (fun x => 0 ≤ x < 2 ^ 32) ex_ends ∧
  (max_length ex_params < 2 ^ 32 →
   Forall (fun x => 1 ≤ x ≤ max_length ex_params) ex_lengths).
Proof.
  apply (encode_captions_shape ex_final ex_params ex_wtoi).
  vm_compute. reflexivity.
Defined.

(** ** assign_splits for arbitrary split sizes *)

Lemma length_filter_seq_window (a b n : nat) :
  length (filter (fun i => ¬ (i < a)%nat ∧ (i < b)%nat) (seq 0 n))
  = (b `min` n - a `min` n)%nat.
Proof.
  induction n as [|n IH]; [simpl; lia|].
  rewrite seq_S, filter_app, length_app, IH. simpl.
  rewrite filter_cons, filter_nil.
  destruct (decide (¬ (n < a)%nat ∧ (n < b)%nat)); simpl; lia.
Qed.

(** X15.  The sizes of the partitions for any integers [num_val] and
    [num_test], negative or too large: with [a] the value of [num_val]
    and [b] that of [num_val + num_test], both brought into the range
    from 0 to the size of the corpus, [a] records are ['val'], [b - a]
    (none if [b < a]) are ['test'] and the remaining ones are ['train'].
    A negative [num_val] therefore shortens the test partition, and
    nothing is reported. *)
Theorem assign_splits_any_sizes (imgs : list img) (p : params) :
  let n := length imgs in
  let a := (Z.to_nat (num_val p) `min` n)%nat in
  let b := (Z.to_nat (num_val p + num_test p) `min` n)%nat in
  count_split "val" (assign_splits imgs p) = a ∧
  count_split "test" (assign_splits imgs p) = (b - a)%nat ∧
  count_split "train" (assign_splits imgs p) = (n - a `max` b)%nat ∧
  (count_split "val" (assign_splits imgs p)
   + count_split "test" (assign_splits imgs p)
   + count_split "train" (assign_splits imgs p) = n)%nat.
Proof.
  cbv zeta. unfold assign_splits. rewrite !count_split_imap.
  assert (length (filter (fun i => split_label (num_val p) (num_test p) i = "val")
                         (seq 0 (length imgs)))
          = (Z.to_nat (num_val p) `min` length imgs)%nat) as Hv.
  { rewrite <- length_filter_seq_lt. apply length_filter_ext.
    intros i. unfold split_label.
    repeat case_bool_decide; split; intros; try done; lia. }
  assert (length (filter (fun i => split_label (num_val p) (num_test p) i = "test")
                         (seq 0 (length imgs)))
          = (Z.to_nat (num_val p + num_test p) `min` length imgs
             - Z.to_nat (num_val p) `min` length imgs)%nat) as Ht.
  { rewrite <- length_filter_seq_window. apply length_filter_ext.
    intros i. unfold split_label.
    repeat case_bool_decide; split; intros; try done; lia. }
  assert (length (filter (fun i => split_label (num_val p) (num_test p) i = "train")
                         (seq 0 (length imgs)))
          = (length imgs - (Z.to_nat (num_val p) `max` Z.to_nat (num_val p + num_test p))
                             `min` length imgs)%nat) as Hr.
  { rewrite <- length_filter_seq_ge. apply length_filter_ext.
    intros i. unfold split_label.
    repeat case_bool_decide; split; intros; try done; lia. }
  rewrite Hv, Ht, Hr. lia.
Qed.

(** ** prepro_captions *)

(** Decidable facts about one character are settled by evaluation. *)
Ltac by_evaluation :=
  match goal with
  | |- ?P => apply (@bool_decide_unpack P _); vm_compute; exact I
  end.

Lemma lower_idem (c : ascii) : lower (lower c) = lower c.
Proof. destruct c as [[] [] [] [] [] [] [] []]; reflexivity. Qed.

Lemma lower_whitespace (c : ascii) : lower c ∈ whitespace ↔ c ∈ whitespace.
Proof.
  destruct (decide (lower c = c)) as [->|Hne]; [done|].
  assert ((lower c ∉ whitespace) ∧ (c ∉ whitespace)) as [? ?]; [|done].
  destruct c as [[] [] [] [] [] [] [] []];
    try (exfalso; apply Hne; reflexivity); split; by_evaluation.
Qed.

Lemma lower_punctuation (c : ascii) : lower c ∈ punctuation ↔ c ∈ punctuation.
Proof.
  destruct (decide (lower c = c)) as [->|Hne]; [done|].
  assert ((lower c ∉ punctuation) ∧ (c ∉ punctuation)) as [? ?]; [|done].
  destruct c as [[] [] [] [] [] [] [] []];
    try (exfalso; apply Hne; reflexivity); split; by_evaluation.
Qed.

Lemma lower_ascii_range (c : ascii) :
  (N_of_ascii c < 128)%N → (N_of_ascii (lower c) < 128)%N.
Proof.
  destruct (decide (lower c = c)) as [->|Hne]; [done|]. intros _.
  destruct c as [[] [] [] [] [] [] [] []];
    try (exfalso; apply Hne; reflexivity); by_evaluation.
Qed.

Lemma whitespace_not_punctuation (c : ascii) : c ∈ whitespace → c ∉ punctuation.
Proof.
  intros Hc. unfold whitespace in Hc. csimpl in Hc.
  repeat (apply elem_of_cons in Hc as [->|Hc]; [by_evaluation|]).
  by apply elem_of_nil in Hc.
Qed.

Lemma forallb_ascii (s : list N) :
  forallb (fun c => bool_decide (c < 128)%N) s = true
  ↔ Forall (fun c => (c < 128)%N) s.
Proof.
  induction s as [|c s IH]; simpl.
  - split; [constructor|done].
  - rewrite andb_true_iff, bool_decide_eq_true, IH, Forall_cons. done.
Qed.

Lemma str_Ok (s : list N) (b : list ascii) :
  str s = Ok b ↔ Forall (fun c => (c < 128)%N) s ∧ b = ascii_of_N <$> s.
Proof.
  unfold str. destruct (forallb _ s) eqn:E.
  - apply forallb_ascii in E. split; [by intros [= <-]|by intros [_ ->]].
  - split; [done|]. intros [Hall _]. apply forallb_ascii in Hall. congruence.
Qed.

Lemma str_Raise (s : list N) (e : exn) :
  str s = Raise e ↔
  e = ValueError "'ascii' codec can't encode character" ∧
  Exists (fun c => (128 ≤ c)%N) s.
Proof.
  unfold str. destruct (forallb _ s) eqn:E.
  - apply forallb_ascii in E. split; [done|]. intros [_ Hex].
    apply Exists_exists in Hex as (c & Hc & Hge).
    eapply Forall_forall in E; [|exact Hc]. simpl in E. lia.
  - split; [|by intros [-> _]]. intros [= <-]. split; [done|].
    destruct (decide (Exists (fun c => (128 ≤ c)%N) s)) as [|Hno]; [done|].
    exfalso. apply (not_Exists_Forall _) in Hno.
    assert (Forall (fun c => (c < 128)%N) s) as Hall.
    { eapply Forall_impl; [exact Hno|]. simpl. intros; lia. }
    apply forallb_ascii in Hall. congruence.
Qed.

(** *** strip and split *)

Lemma lstrip_split (s : list ascii) :
  ∃ lead, Forall (fun c => c ∈ whitespace) lead ∧ s = lead ++ lstrip s.
Proof.
  induction s as [|c s (lead & Hlead & IH)]; [by exists []|]. simpl.
  destruct (decide (c ∈ whitespace)).
  - exists (c :: lead). split; [by constructor|]. simpl. by f_equal.
  - by exists [].
Qed.

Lemma strip_split (s : list ascii) :
  ∃ lead trail,
    Forall (fun c => c ∈ whitespace) lead ∧ Forall (fun c => c ∈ whitespace) trail ∧
    s = lead ++ strip s ++ trail.
Proof.
  destruct (lstrip_split s) as (lead & Hlead & Hs).
  destruct (lstrip_split (reverse (lstrip s))) as (rt & Hrt & Hr).
  exists lead, (reverse rt). split_and!; [done|by apply Forall_reverse|].
  rewrite Hs at 1. f_equal. unfold strip.
  rewrite <- (reverse_involutive (lstrip s)) at 1. rewrite Hr at 1.
  by rewrite reverse_app.
Qed.

Lemma split_go_blank (trail : list ascii) (cur : list ascii) :
  Forall (fun c => c ∈ whitespace) trail →
  split_go cur trail = if decide (cur = []) then [] else [cur].
Proof.
  intros Htrail. revert cur. induction Htrail as [|c trail Hc _ IH]; intros cur.
  - done.
  - simpl. rewrite decide_True by done.
    destruct (decide (cur = [])); by rewrite IH.
Qed.

Lemma split_go_app_blank (s trail cur : list ascii) :
  Forall (fun c => c ∈ whitespace) trail →
  split_go cur (s ++ trail) = split_go cur s.
Proof.
  intros Htrail. revert cur. induction s as [|c s IH]; intros cur.
  - simpl. by apply split_go_blank.
  - simpl. destruct (decide (c ∈ whitespace)); [destruct (decide (cur = []))|];
      by rewrite IH.
Qed.

Lemma split_go_blank_app (lead s : list ascii) :
  Forall (fun c => c ∈ whitespace) lead →
  split_go [] (lead ++ s) = split_go [] s.
Proof.
  induction 1 as [|c lead Hc _ IH]; [done|].
  simpl. by rewrite decide_True by done.
Qed.

(** [.strip()] is without effect before [.split()]. *)
Lemma split_words_strip (s : list ascii) :
  split_words (strip s) = split_words s.
Proof.
  destruct (strip_split s) as (lead & trail & Hlead & Htrail & Hs).
  unfold split_words. rewrite Hs at 2.
  by rewrite split_go_blank_app, split_go_app_blank.
Qed.

Lemma split_go_words (P : ascii → Prop) (s : list ascii) :
  ∀ cur, Forall P cur → Forall P s → Forall (fun c => c ∉ whitespace) cur →
         Forall (fun w => w ≠ [] ∧ Forall (fun c => P c ∧ c ∉ whitespace) w)
                (split_go cur s).
Proof.
  induction s as [|c s IH]; intros cur Hcur Hs Hnw.
  - simpl. destruct (decide (cur = [])); constructor; [|constructor].
    split; [done|]. apply Forall_and. by split.
  - apply Forall_cons in Hs as [Hc Hs]. simpl.
    destruct (decide (c ∈ whitespace)) as [Hw|Hw].
    + destruct (decide (cur = [])).
      * apply IH; done || constructor.
      * constructor; [|apply IH; done || constructor].
        split; [done|]. apply Forall_and. by split.
    + apply IH; [|done|]; apply Forall_app; split; try done;
        by repeat constructor.
Qed.

Lemma split_go_nil (s cur : list ascii) :
  split_go cur s = [] ↔ cur = [] ∧ Forall (fun c => c ∈ whitespace) s.
Proof.
  revert cur. induction s as [|c s IH]; intros cur; simpl.
  - destruct (decide (cur = [])); split; try done; [by intros [? _]].
  - destruct (decide (c ∈ whitespace)) as [Hw|Hw].
    + destruct (decide (cur = [])) as [->|Hne].
      * rewrite IH, Forall_cons. tauto.
      * split; [done|]. by intros [? _].
    + rewrite IH. split.
      * intros [Hcur _]. by destruct cur.
      * intros [_ Hall]. by apply Forall_cons in Hall as [? _].
Qed.

(** *** tokenize *)

Lemma tokenize_Ok (s : list N) (toks : caption) :
  tokenize s = Ok toks ↔
  Forall (fun c => (c < 128)%N) s ∧
  toks = String.string_of_list_ascii
           <$> split_words (translate_delete punctuation (lower <$> (ascii_of_N <$> s))).
Proof.
  unfold tokenize. destruct (str s) as [b|e] eqn:E.
  - apply str_Ok in E as [Hs ->]. rewrite bind_Ok, split_words_strip. split.
    + by intros [= <-].
    + by intros [_ ->].
  - rewrite bind_Raise. split; [done|]. intros [Hs _].
    assert (str s = Ok (ascii_of_N <$> s)) as E' by (by apply str_Ok).
    congruence.
Qed.

Lemma tokenize_Raise (s : list N) (e : exn) :
  tokenize s = Raise e ↔
  e = ValueError "'ascii' codec can't encode character" ∧
  Exists (fun c => (128 ≤ c)%N) s.
Proof.
  unfold tokenize. destruct (str s) as [b|e'] eqn:E.
  - rewrite bind_Ok. split; [done|]. intros Hr.
    apply str_Raise in Hr. congruence.
  - rewrite bind_Raise. rewrite <- str_Raise, E. split; by intros [= ->].
Qed.

(** The characters that reach [.split()] are clean, white space apart. *)
Lemma translated_chars (s : list N) :
  Forall (fun c => (c < 128)%N) s →
  Forall (fun c => (c ∉ punctuation) ∧ lower c = c ∧ (N_of_ascii c < 128)%N)
         (translate_delete punctuation (lower <$> (ascii_of_N <$> s))).
Proof.
  intros Hs. unfold translate_delete. apply Forall_forall. intros c Hc.
  apply list_elem_of_filter in Hc as [Hnp Hc]. split; [done|].
  apply list_elem_of_fmap in Hc as (c0 & -> & Hc0).
  split; [apply lower_idem|]. apply lower_ascii_range.
  apply list_elem_of_fmap in Hc0 as (n & -> & Hn).
  eapply Forall_forall in Hs; [|exact Hn]. simpl in Hs.
  rewrite N_ascii_embedding by lia. done.
Qed.

Lemma tokenize_clean (s : list N) (toks : caption) (w : string) :
  tokenize s = Ok toks → w ∈ toks →
  chars w ≠ [] ∧ Forall clean_char (chars w).
Proof.
  intros [Hs ->]%tokenize_Ok Hw.
  apply list_elem_of_fmap in Hw as (l & -> & Hl).
  unfold chars. rewrite String.list_ascii_of_string_of_list_ascii.
  pose proof (split_go_words _ _ [] ltac:(constructor) (translated_chars s Hs)
                ltac:(constructor)) as Hwords.
  eapply Forall_forall in Hwords as [Hne Hall]; [|exact Hl].
  split; [done|]. eapply Forall_impl; [exact Hall|].
  intros c [(? & ? & ?) ?]. unfold clean_char. done.
Qed.

Lemma clean_not_UNK (w : string) : Forall clean_char (chars w) → w ≠ UNK.
Proof.
  intros Hall ->. apply Forall_cons in Hall as [(_ & _ & Hlow & _) _].
  discriminate Hlow.
Qed.

Lemma chars_nonempty (w : string) : chars w ≠ [] ↔ w ≠ "".
Proof. by destruct w. Qed.

(** *** The loop over the records *)

Lemma mapM_Raise_elem {A B : Type} (f : A → result B) (l : list A) (e : exn) :
  mapM f l = Raise e → ∃ x, x ∈ l ∧ f x = Raise e.
Proof.
  induction l as [|x l IH]; [done|]. rewrite mapM_cons.
  destruct (f x) as [y|e'] eqn:E.
  - rewrite bind_Ok. destruct (mapM f l) as [k|e']; [done|].
    rewrite bind_Raise. intros [= ->]. destruct IH as (x' & ? & ?); [done|].
    exists x'. split; [by right|done].
  - rewrite bind_Raise. intros [= ->]. exists x. split; [by left|done].
Qed.

Lemma mapM_Ok_exists {A B : Type} (f : A → result B) (l : list A) :
  Forall (fun x => ∃ y, f x = Ok y) l → ∃ k, mapM f l = Ok k.
Proof.
  induction 1 as [|x l [y Hy] _ [k IH]]; [by exists []|].
  exists (y :: k). by rewrite mapM_cons, Hy, bind_Ok, IH.
Qed.

Lemma prepro_img_Ok (r : raw_img) (im : img) :
  prepro_img r = Ok im ↔
  Forall2 (fun s toks => tokenize s = Ok toks) (captions r) (processed_tokens im) ∧
  final_captions im = None ∧ split im = None.
Proof.
  unfold prepro_img. destruct (mapM tokenize (captions r)) as [toks|e] eqn:E.
  - apply mapM_Ok_Forall2 in E. rewrite bind_Ok. split.
    + by intros [= <-].
    + intros (HF & Hf & Hs). destruct im as [toks' f sp]. simpl in *. subst.
      do 2 f_equal. apply mapM_Ok_Forall2 in E, HF. congruence.
  - rewrite bind_Raise. split; [done|]. intros (HF & _).
    apply mapM_Ok_Forall2 in HF. congruence.
Qed.

Lemma prepro_captions_Ok (raws : list raw_img) (imgs : list img) :
  prepro_captions raws = Ok imgs ↔
  Forall2 (fun r im =>
             Forall2 (fun s toks => tokenize s = Ok toks)
                     (captions r) (processed_tokens im) ∧
             final_captions im = None ∧ split im = None) raws imgs.
Proof.
  unfold prepro_captions. rewrite mapM_Ok_Forall2. split; intros HF;
    (eapply Forall2_impl; [exact HF|]); intros r im; by rewrite prepro_img_Ok.
Qed.

(** Every token of the corpus comes from a caption. *)
Lemma prepro_token_origin (raws : list raw_img) (imgs : list img) (w : string) :
  prepro_captions raws = Ok imgs → w ∈ all_tokens imgs →
  ∃ r s toks, r ∈ raws ∧ s ∈ captions r ∧ tokenize s = Ok toks ∧ w ∈ toks.
Proof.
  intros HF%prepro_captions_Ok Hw.
  unfold all_tokens, all_captions in Hw.
  apply list_elem_of_join in Hw as (toks & Hw & Htoks).
  apply list_elem_of_join in Htoks as (cs & Htoks & Hcs).
  apply list_elem_of_fmap in Hcs as (im & -> & Him).
  apply list_elem_of_lookup in Him as (i & Hi).
  destruct (Forall2_lookup_r _ _ _ _ _ HF Hi) as (r & Hr & Hcaps & _).
  apply list_elem_of_lookup in Htoks as (j & Hj).
  destruct (Forall2_lookup_r _ _ _ _ _ Hcaps Hj) as (s & Hs & Htok).
  exists r, s, toks. split_and!; try done; by eapply list_elem_of_lookup_2.
Qed.

(** X16.  The tokens [prepro_captions] produces: every token is a
    non-empty string of ASCII characters without white space, without a
    punctuation character and without an upper-case letter; in particular
    no token is the sentinel ['UNK']. *)
Theorem prepro_captions_tokens (raws : list raw_img) (imgs : list img) (w : string) :
  prepro_captions raws = Ok imgs → w ∈ all_tokens imgs →
  w ≠ "" ∧ Forall clean_char (chars w) ∧ w ≠ UNK.
Proof.
  intros Hp Hw.
  destruct (prepro_token_origin _ _ _ Hp Hw) as (r & s & toks & _ & _ & Htok & Hin).
  destruct (tokenize_clean _ _ _ Htok Hin) as [Hne Hclean].
  split_and!; [by apply chars_nonempty|done|by apply clean_not_UNK].
Qed.

Lemma prepro_ex : prepro_captions ex_raw = Ok ex_corpus.
Proof. vm_compute. reflexivity. Qed.

Lemma prepro_captions_tokens_witness :
  "dogs" ≠ "" ∧ Forall clean_char (chars "dogs") ∧ "dogs" ≠ UNK.
Proof.
  apply (prepro_captions_tokens ex_raw ex_corpus "dogs").
  - vm_compute. reflexivity.
  - by_evaluation.
Defined.

Lemma prepro_captions_ascii (raws : list raw_img) :
  (∃ imgs, prepro_captions raws = Ok imgs) ↔
  Forall (fun r => Forall (Forall (fun c => (c < 128)%N)) (captions r)) raws.
Proof.
  split.
  - intros (imgs & HF%prepro_captions_Ok).
    apply Forall_forall. intros r Hr.
    apply list_elem_of_lookup in Hr as (i & Hi).
    destruct (Forall2_lookup_l _ _ _ _ _ HF Hi) as (im & _ & Hcaps & _).
    apply Forall_forall. intros s Hs.
    apply list_elem_of_lookup in Hs as (j & Hj).
    destruct (Forall2_lookup_l _ _ _ _ _ Hcaps Hj) as (toks & _ & Htok).
    by apply tokenize_Ok in Htok as [? _].
  - intros Hall. apply mapM_Ok_exists.
    eapply Forall_impl; [exact Hall|]. intros r Hr. unfold prepro_img.
    destruct (mapM_Ok_exists tokenize (captions r)) as (toks & ->).
    { eapply Forall_impl; [exact Hr|]. intros s Hs.
      eexists. by apply tokenize_Ok. }
    rewrite bind_Ok. by eexists.
Qed.

(** X17.  [prepro_captions] returns exactly when every caption is ASCII;
    otherwise it raises the [UnicodeEncodeError] of [str(s)].  When it
    returns, the records are in the same order, each with one list of
    tokens per caption, in caption order, and no other key written. *)
Theorem prepro_captions_returns (raws : list raw_img) :
  ((∃ imgs, prepro_captions raws = Ok imgs) ↔
   Forall (fun r => Forall (Forall (fun c => (c < 128)%N)) (captions r)) raws) ∧
  (∀ e, prepro_captions raws = Raise e →
        e = ValueError "'ascii' codec can't encode character") ∧
  (∀ imgs, prepro_captions raws = Ok imgs →
           Forall2 (fun r im =>
                      length (processed_tokens im) = length (captions r) ∧
                      final_captions im = None ∧ split im = None) raws imgs).
Proof.
  split_and!.
  - apply prepro_captions_ascii.
  - intros e He. apply mapM_Raise_elem in He as (r & _ & He).
    unfold prepro_img in He.
    destruct (mapM tokenize (captions r)) as [toks|e'] eqn:E; [done|].
    rewrite bind_Raise in He. injection He as ->.
    apply mapM_Raise_elem in E as (s & _ & Hs).
    by apply tokenize_Raise in Hs as [-> _].
  - intros imgs HF%prepro_captions_Ok.
    eapply Forall2_impl; [exact HF|]. intros r im (Hcaps & ? & ?).
    split_and!; [|done..]. symmetry. by eapply Forall2_length.
Qed.

Lemma prepro_captions_returns_witness :
  (∃ imgs, prepro_captions ex_raw = Ok imgs) ∧
  Forall2 (fun r im =>
             length (processed_tokens im) = length (captions r) ∧
             final_captions im = None ∧ split im = None) ex_raw ex_corpus ∧
  prepro_captions [RawImg [[233%N]]]
  = Raise (ValueError "'ascii' codec can't encode character").
Proof.
  split_and!.
  - apply (prepro_captions_returns ex_raw).
    repeat constructor; by_evaluation.
  - apply (prepro_captions_returns ex_raw). vm_compute. reflexivity.
  - destruct (prepro_captions [RawImg [[233%N]]]) as [imgs|e] eqn:E.
    + exfalso. vm_compute in E. discriminate E.
    + f_equal. by apply (prepro_captions_returns [RawImg [[233%N]]]).
Defined.

Lemma blank_code_iff (n : N) :
  (n < 128)%N →
  (lower (ascii_of_N n) ∈ punctuation ∨ lower (ascii_of_N n) ∈ whitespace)
  ↔ blank_code n.
Proof.
  intros Hn. unfold blank_code. rewrite lower_punctuation, lower_whitespace. tauto.
Qed.

Lemma tokenize_nil (s : list N) :
  tokenize s = Ok [] ↔ Forall blank_code s.
Proof.
  rewrite tokenize_Ok. unfold split_words, translate_delete.
  assert (∀ l : list ascii,
            Forall (fun c => c ∈ whitespace) (filter (fun c => c ∉ punctuation) l)
            ↔ Forall (fun c => c ∈ punctuation ∨ c ∈ whitespace) l) as Hfilter.
  { intros l. rewrite !Forall_forall. split.
    - intros H c Hc. destruct (decide (c ∈ punctuation)); [by left|right].
      apply H. by apply list_elem_of_filter.
    - intros H c [Hnp Hc]%list_elem_of_filter.
      destruct (H c Hc); done. }
  split.
  - intros [Hs Hnil]. symmetry in Hnil. apply fmap_nil_inv in Hnil.
    apply split_go_nil in Hnil as [_ Hall]. apply Hfilter in Hall.
    rewrite <- list_fmap_compose, Forall_fmap in Hall.
    apply Forall_forall. intros n Hn.
    eapply Forall_forall in Hs, Hall; try exact Hn. simpl in Hall.
    by apply blank_code_iff.
  - intros Hall. assert (Forall (fun c => (c < 128)%N) s) as Hs.
    { eapply Forall_impl; [exact Hall|]. by intros n [? _]. }
    split; [done|].
    assert (split_go [] (filter (fun c => c ∉ punctuation)
                           (lower <$> (ascii_of_N <$> s))) = []) as ->; [|done].
    apply split_go_nil. split; [done|].
    apply Hfilter. rewrite <- list_fmap_compose, Forall_fmap.
    eapply Forall_impl; [exact Hall|]. intros n Hn. simpl.
    apply blank_code_iff; [by destruct Hn|done].
Qed.

(** X18.  A caption yields no token exactly when it is made of ASCII
    white space and punctuation only (the empty caption included). *)
Theorem tokenize_no_words (s : list N) :
  tokenize s = Ok [] ↔
  Forall (fun c => (c < 128)%N ∧
                   (ascii_of_N c ∈ whitespace ∨ ascii_of_N c ∈ punctuation)) s.
Proof. apply tokenize_nil. Qed.

Lemma tokenize_no_words_witness :
  Forall (fun c => (c < 128)%N ∧
                   (ascii_of_N c ∈ whitespace ∨ ascii_of_N c ∈ punctuation))
         (codes " ... !").
Proof.
  apply (tokenize_no_words (codes " ... !")). vm_compute. reflexivity.
Defined.

(** X19.  A caption made of white space and punctuation only aborts the
    run: whatever the other captions and the options are,
    [main_from_captions] raises. *)
Theorem blank_caption_aborts (raws : list raw_img) (p : params)
    (r : raw_img) (s : list N) :
  r ∈ raws → s ∈ captions r → Forall blank_code s →
  ∃ e, main_from_captions raws p = Raise e.
Proof.
  intros Hr Hs Hblank. unfold main_from_captions.
  destruct (prepro_captions raws) as [imgs|e] eqn:Hp; [|by exists e].
  rewrite bind_Ok.
  destruct (main imgs p) as [out|e] eqn:Hmain; [|by exists e]. exfalso.
  apply prepro_captions_Ok in Hp.
  apply list_elem_of_lookup in Hr as (i & Hi).
  destruct (Forall2_lookup_l _ _ _ _ _ Hp Hi) as (im & Him & Hcaps & _).
  apply list_elem_of_lookup in Hs as (j & Hj).
  destruct (Forall2_lookup_l _ _ _ _ _ Hcaps Hj) as (toks & Htoks & Htok).
  assert (toks = []) as ->.
  { apply tokenize_nil in Hblank. congruence. }
  assert ([] ∈ all_captions imgs) as Hin.
  { unfold all_captions. apply list_elem_of_join. exists (processed_tokens im).
    split; [by eapply list_elem_of_lookup_2|].
    apply list_elem_of_fmap_2. by eapply list_elem_of_lookup_2. }
  apply main_Ok in Hmain
    as (vocab & imgs' & L & starts & ends & lengths & Hb & Henc & _).
  rewrite encode_captions_assign_splits in Henc.
  apply encode_captions_Ok in Henc as (_ & Hml & _ & _ & Hpos & _).
  apply build_vocab_inv in Hb as (_ & _ & ->).
  rewrite all_final_captions_build, Forall_fmap in Hpos.
  eapply Forall_forall in Hpos; [|exact Hin]. simpl in Hpos.
  rewrite caption_length_nil in Hpos by done. lia.
Qed.

Lemma blank_caption_aborts_witness :
  ∃ e, main_from_captions [RawImg [codes "a dog"; codes " ... "]] ex_params
       = Raise e.
Proof.
  apply (blank_caption_aborts _ ex_params
           (RawImg [codes "a dog"; codes " ... "]) (codes " ... ")).
  - apply elem_of_cons. by left.
  - apply elem_of_cons. right. apply elem_of_cons. by left.
  - repeat constructor; by_evaluation.
Defined.

(** X20.  In a run from the captions the sentinel is unambiguous: the
    vocabulary [build_vocab] returns lists no word twice, it contains
    ['UNK'] exactly when some word of the corpus has a count at or below
    the threshold, and in the records it returns the final captions
    follow the tokens position by position (as many captions, as many
    words in each), the word at a position being ['UNK'] exactly when the
    token at that position has such a count, and the token itself
    otherwise. *)
Theorem sentinel_unambiguous (raws : list raw_img) (imgs : list img) (p : params)
    (vocab : list string) (imgs' : list img) :
  prepro_captions raws = Ok imgs →
  build_vocab imgs p = Ok (vocab, imgs') →
  NoDup vocab ∧
  (UNK ∈ vocab ↔
   ∃ w, w ∈ all_tokens imgs ∧ word_count imgs w ≤ word_count_threshold p) ∧
  (∀ i im, imgs !! i = Some im →
     ∃ im' finals,
       imgs' !! i = Some im' ∧ final_captions im' = Some finals ∧
       length finals = length (processed_tokens im) ∧
       ∀ j txt, processed_tokens im !! j = Some txt →
         ∃ cap, finals !! j = Some cap ∧ length cap = length txt ∧
                ∀ k w, txt !! k = Some w →
                  ∃ w', cap !! k = Some w' ∧
                        (w' = UNK ↔ word_count imgs w ≤ word_count_threshold p) ∧
                        (w' ≠ UNK → w' = w)).
Proof.
  intros Hp Hb.
  assert (∀ w, w ∈ all_tokens imgs → w ≠ UNK) as Hclean.
  { intros w Hw.
    destruct (prepro_token_origin _ _ _ Hp Hw) as (r & s & toks & _ & _ & Htok & Hin).
    destruct (tokenize_clean _ _ _ Htok Hin) as [_ Hc]. by apply clean_not_UNK. }
  assert (UNK ∉ all_tokens imgs) as Hunk.
  { intros Hin. by apply (Hclean UNK Hin). }
  apply build_vocab_inv in Hb as (_ & -> & ->). cbv zeta. split_and!.
  - by apply vocab_NoDup.
  - rewrite <- some_word_dropped_iff, elem_of_app, elem_of_vocab_of.
    destruct (decide (some_word_dropped imgs (word_count_threshold p))) as [Hd|Hd].
    + split; [done|]. intros _. right. by left.
    + split; [|done]. intros [[? _]|Hnil]; [done|by apply elem_of_nil in Hnil].
  - intros i im Him. eexists _, _. rewrite list_lookup_fmap, Him. simpl.
    split_and!; [done..|by rewrite length_fmap|].
    intros j txt Htxt. eexists. rewrite list_lookup_fmap, Htxt. simpl.
    split_and!; [done|by unfold final_caption; rewrite length_fmap|].
    intros k w Hw. eexists. unfold final_caption.
    rewrite list_lookup_fmap, Hw. simpl. split; [done|].
    assert (w ∈ all_tokens imgs) as Hin.
    { unfold all_tokens, all_captions. apply list_elem_of_join. exists txt.
      split; [by eapply list_elem_of_lookup_2|].
      apply list_elem_of_join. exists (processed_tokens im).
      split; [by eapply list_elem_of_lookup_2|].
      apply list_elem_of_fmap. exists im.
      split; [done|by eapply list_elem_of_lookup_2]. }
    rewrite final_word_spec.
    destruct (decide (word_count_threshold p < word_count imgs w)) as [Hlt|Hge].
    + split; [|done]. split; [intros ->; by apply Hclean in Hin|lia].
    + split; [|done]. split; [lia|done].
Qed.

Lemma sentinel_unambiguous_witness :
  NoDup ex_vocab ∧
  (UNK ∈ ex_vocab ↔ ∃ w, w ∈ all_tokens ex_corpus ∧ word_count ex_corpus w ≤ 1) ∧
  (∀ i im, ex_corpus !! i = Some im →
     ∃ im' finals,
       ex_final !! i = Some im' ∧ final_captions im' = Some finals ∧
       length finals = length (processed_tokens im) ∧
       ∀ j txt, processed_tokens im !! j = Some txt →
         ∃ cap, finals !! j = Some cap ∧ length cap = length txt ∧
                ∀ k w, txt !! k = Some w →
                  ∃ w', cap !! k = Some w' ∧
                        (w' = UNK ↔ word_count ex_corpus w ≤ 1) ∧
                        (w' ≠ UNK → w' = w)).
Proof.
  apply (sentinel_unambiguous ex_raw ex_corpus ex_params ex_vocab ex_final).
  - vm_compute. reflexivity.
  - vm_compute. reflexivity.
Defined.




(** *** Tokens are a normal form *)

Lemma split_go_word (w : list ascii) :
  ∀ cur rest, Forall (fun c => c ∉ whitespace) w →
              split_go cur (w ++ rest) = split_go (cur ++ w) rest.
Proof.
  induction w as [|c w IH]; intros cur rest Hw.
  - by rewrite app_nil_r.
  - apply Forall_cons in Hw as [Hc Hw]. simpl.
    rewrite decide_False by done. rewrite IH by done.
    by rewrite <- app_assoc.
Qed.

Lemma split_go_join (ws : list (list ascii)) :
  Forall (fun w => w ≠ [] ∧ Forall (fun c => c ∉ whitespace) w) ws →
  split_go [] (join_chars ws) = ws.
Proof.
  induction 1 as [|w ws [Hne Hw] Hws IH]; [done|].
  destruct ws as [|w2 ws].
  - simpl. rewrite <- (app_nil_r w) at 1. rewrite split_go_word by done.
    simpl. by rewrite decide_False.
  - change (join_chars (w :: w2 :: ws))
      with (w ++ " "%char :: join_chars (w2 :: ws)).
    rewrite split_go_word by done. simpl app.
    cbn [split_go]. rewrite decide_True by by_evaluation.
    rewrite decide_False by done. by rewrite IH.
Qed.

Lemma join_chars_elem (ws : list (list ascii)) (c : ascii) :
  c ∈ join_chars ws → c = " "%char ∨ ∃ w, w ∈ ws ∧ c ∈ w.
Proof.
  induction ws as [|w ws IH]; [by intros ?%elem_of_nil|].
  destruct ws as [|w2 ws].
  - simpl. intros Hc. right. exists w. split; [by left|done].
  - change (join_chars (w :: w2 :: ws))
      with (w ++ " "%char :: join_chars (w2 :: ws)).
    intros [Hc|Hc]%elem_of_app.
    + right. exists w. split; [by left|done].
    + apply elem_of_cons in Hc as [->|Hc]; [by left|].
      destruct (IH Hc) as [->|(w' & Hw' & Hcw)]; [by left|].
      right. exists w'. split; [by right|done].
Qed.

(** X22.  Tokens are a normal form: writing the tokens of a caption back
    as one string, joined by single spaces, and tokenising that string
    gives the same tokens. *)
Theorem tokenize_idempotent (s : list N) (toks : caption) :
  tokenize s = Ok toks → tokenize (join_words toks) = Ok toks.
Proof.
  intros Htok.
  assert (Forall (fun w => w ≠ [] ∧ Forall clean_char w) (chars <$> toks)) as Hclean.
  { apply Forall_fmap, Forall_forall. intros w Hw.
    by apply (tokenize_clean s toks). }
  assert (Forall (fun c => c = " "%char ∨ clean_char c)
                 (join_chars (chars <$> toks))) as Hchars.
  { apply Forall_forall. intros c Hc.
    apply join_chars_elem in Hc as [->|(w & Hw & Hc)]; [by left|right].
    eapply Forall_forall in Hclean as [_ Hall]; [|exact Hw].
    by eapply Forall_forall in Hall. }
  apply tokenize_Ok. unfold join_words. split.
  - apply Forall_fmap. eapply Forall_impl; [exact Hchars|].
    intros c [->|(_ & _ & _ & Hc)]; [by vm_compute|done].
  - assert (ascii_of_N <$> (N_of_ascii <$> join_chars (chars <$> toks))
            = join_chars (chars <$> toks)) as ->.
    { rewrite <- list_fmap_compose.
      rewrite <- (list_fmap_id (join_chars (chars <$> toks))) at 2.
      apply list_fmap_ext. intros i c _. apply ascii_N_embedding. }
    assert (lower <$> join_chars (chars <$> toks) = join_chars (chars <$> toks)) as ->.
    { rewrite <- (list_fmap_id (join_chars (chars <$> toks))) at 2.
      apply Forall_fmap_ext. eapply Forall_impl; [exact Hchars|].
      intros c [->|(_ & _ & Hc & _)]; [reflexivity|done]. }
    assert (translate_delete punctuation (join_chars (chars <$> toks))
            = join_chars (chars <$> toks)) as ->.
    { unfold translate_delete. clear -Hchars.
      induction Hchars as [|c l Hc _ IH]; [done|].
      rewrite filter_cons, IH. rewrite decide_True; [done|].
      destruct Hc as [->|(_ & Hc & _)]; [by_evaluation|done]. }
    unfold split_words. rewrite split_go_join.
    + rewrite <- list_fmap_compose.
      rewrite <- (list_fmap_id toks) at 1. apply list_fmap_ext.
      intros i w _. simpl. unfold chars.
      by rewrite String.string_of_list_ascii_of_string.
    + eapply Forall_impl; [exact Hclean|]. intros w [Hne Hall].
      split; [done|]. eapply Forall_impl; [exact Hall|]. by intros c [? _].
Qed.

Lemma tokenize_idempotent_witness :
  tokenize (join_words ["two"; "dogs"; "run"]) = Ok ["two"; "dogs"; "run"].
Proof.
  apply (tokenize_idempotent (codes " Two dogs  run. ")).
  vm_compute. reflexivity.
Defined.
